(** * refine: data hook [useOne], the [Layout] shell and the router [Prompt]

    A shallow embedding of
    - [src/hooks/data/useOne.ts]  (the "fetch one record" data hook),
    - the [Layout] component      (sidebar menu and logout action),
    - the nextjs [Prompt] and [useLocation] samples of the router-provider
      reference,
    - the sample auth provider and the post review page of the
      custom-pages guide,
    - the unique-title rule of the custom form validation guide,
    followed by the properties the specification states about them and
    further properties read off the code. *)

From stdpp Require Import gmap strings list.

(** ** Promises

    An asynchronous operation "settles or fails". *)
Inductive Settled (A E : Type) : Type :=
| Fulfilled (value : A)
| Rejected (reason : E).
Arguments Fulfilled {A E} value.
Arguments Rejected {A E} reason.

(** ** The data hook *)
Module DataHooks.

(** One invocation [getOne(resource, id)] of the data provider. *)
Record Request : Type := mkRequest { req_resource : string; req_id : string }.

(** What the network layer sees: a call being issued, and later the
    settlement of its promise. *)
Inductive Event : Type :=
| Requested (c : Request)
| Completed (c : Request).

Definition Net : Type := list Event.

(** [QueryObserverResult]: pending, success with payload, failure with error. *)
Inductive Status (Payload Reason : Type) : Type :=
| Loading
| Success (data : Payload)
| Error (error : Reason).
Arguments Loading {Payload Reason}.
Arguments Success {Payload Reason} data.
Arguments Error {Payload Reason} error.

Definition isSuccess {P R} (s : Status P R) : bool :=
  match s with Success _ => true | _ => false end.

(** The function handed to [useQuery]: invoking it performs provider calls
    and returns the promise of the call (identified by its request). *)
Definition QueryFn : Type := unit -> Net -> Request * Net.

(** A query of the cache layer. [q_promise] is the in-flight promise. *)
Record Query (Payload Reason : Type) : Type := mkQuery {
  q_status : Status Payload Reason;
  q_promise : option Request;
  q_fn : QueryFn;
  q_failureCount : nat
}.
Arguments mkQuery {Payload Reason}.
Arguments q_status {Payload Reason}.
Arguments q_promise {Payload Reason}.
Arguments q_fn {Payload Reason}.
Arguments q_failureCount {Payload Reason}.

Record Store (Payload Reason : Type) : Type := mkStore {
  cache : gmap string (Query Payload Reason);
  net : Net
}.
Arguments mkStore {Payload Reason}.
Arguments cache {Payload Reason}.
Arguments net {Payload Reason}.

(** [IDataContext]: the host-supplied data provider.  [getOne resource id]
    tells how the promise of that call settles. *)
Record IDataContext (Payload Reason : Type) : Type := mkDataContext {
  getOne : string -> string -> Settled Payload Reason
}.
Arguments mkDataContext {Payload Reason}.
Arguments getOne {Payload Reason}.

Section Hook.
Context {Payload Reason : Type}.

(** [useContext(DataContext)] *)
Variable DataContext : IDataContext Payload Reason.

(** The retry policy of the query layer (an external default). *)
Variable retry : nat.

Abbreviation Status := (Status Payload Reason).
Abbreviation Query := (Query Payload Reason).
Abbreviation Store := (Store Payload Reason).

(** Calling the provider issues the request; the promise settles later. *)
Definition call_getOne (resource id : string) : Net -> Request * Net :=
  fun n => let c := mkRequest resource id in (c, n ++ [Requested c]).

(** How the promise of a request settles.  The provider is taken to answer
    a given resource and id the same way on every call. *)
Definition settles (c : Request) : Settled Payload Reason :=
  getOne DataContext (req_resource c) (req_id c).

(** Modelled from the spec: the query-caching layer's [useQuery] (the
    react-query package, an external collaborator absent from the
    sources).  Results are cached per key; a key without an entry
    triggers the fetch, a key with an entry is served from the cache and
    shares the in-flight request. *)
Definition useQuery (queryKey : string) (queryFn : QueryFn) (st : Store)
  : Status * Store :=
  match cache st !! queryKey with
  | Some q => (q_status q, st)
  | None =>
      let '(p, n) := queryFn tt (net st) in
      (Loading,
       mkStore (<[queryKey := mkQuery Loading (Some p) queryFn 0]> (cache st)) n)
  end.

(** Modelled from the spec: the settlement of the in-flight promise of
    the query under [queryKey] as the query layer handles it.  A payload
    becomes the success state; a rejection is retried [retry] times by
    invoking the query function again, and then becomes the failure
    state carrying the rejection reason. *)
Definition settle (queryKey : string) (st : Store) : Store :=
  match cache st !! queryKey with
  | Some q =>
      match q_promise q with
      | Some p =>
          let n := net st ++ [Completed p] in
          match settles p with
          | Fulfilled d =>
              mkStore (<[queryKey := mkQuery (Success d) None (q_fn q) 0]> (cache st)) n
          | Rejected e =>
              if q_failureCount q <? retry then
                let '(p', n') := q_fn q tt n in
                mkStore (<[queryKey := mkQuery (q_status q) (Some p') (q_fn q)
                                         (S (q_failureCount q))]> (cache st)) n'
              else
                mkStore (<[queryKey := mkQuery (Error e) None (q_fn q)
                                         (S (q_failureCount q))]> (cache st)) n
          end
      | None => st
      end
  | None => st
  end.

(** *** [useOne]  (src/hooks/data/useOne.ts) *)

(** The template literal [`resource/getOne/${resource}`]. *)
Definition queryKey (resource id : string) : string :=
  "resource/getOne/" +:+ resource.

(** The arrow function [() => getOne(resource, id)]. *)
Definition queryFn (resource id : string) : QueryFn :=
  fun _ => call_getOne resource id.

Definition useOne (resource id : string) (st : Store) : Status * Store :=
  let queryResponse := useQuery (queryKey resource id) (queryFn resource id) st in
  queryResponse.

(** The entry a hook invocation creates when its key has none. *)
Definition fresh_query (resource id : string) : Query :=
  mkQuery Loading (Some (mkRequest resource id)) (queryFn resource id) 0.

(** The entry found under the key of [resource]. *)
Definition entry (resource : string) (st : Store) : option Query :=
  cache st !! queryKey resource "".

(** Whether the query of [resource] has a promise in flight. *)
Definition pending (resource : string) (st : Store) : nat :=
  match entry resource st with
  | Some q => match q_promise q with Some _ => 1 | None => 0 end
  | None => 0
  end.

(** What a hook for [(resource, id)] reports when its component renders
    in store [st]. *)
Definition reports (resource id : string) (st : Store) : Status :=
  fst (useOne resource id st).

(** *** Runs: hook invocations interleaved with settlements *)
Inductive Step : Type :=
| Render (resource id : string)
| Settle (resource id : string).

Definition step (s : Step) (st : Store) : Store :=
  match s with
  | Render resource id => snd (useOne resource id st)
  | Settle resource id => settle (queryKey resource id) st
  end.

Definition run (steps : list Step) (st : Store) : Store :=
  fold_left (fun st s => step s st) steps st.

Definition empty_store : Store := mkStore ∅ [].

(** Provider calls issued, and calls settled, for a resource. *)
Definition requested (resource : string) (e : Event) : bool :=
  match e with
  | Requested c => bool_decide (req_resource c = resource)
  | Completed _ => false
  end.

Definition completed (resource : string) (e : Event) : bool :=
  match e with
  | Requested _ => false
  | Completed c => bool_decide (req_resource c = resource)
  end.

Definition count (p : Event -> bool) (n : Net) : nat :=
  length (List.filter p n).

(** How often the promise of the query of [resource] is settled in a run. *)
Definition settlements (resource : string) (steps : list Step) : nat :=
  length (List.filter (fun s => match s with
                                | Settle r _ => bool_decide (r = resource)
                                | Render _ _ => false
                                end) steps).

(** The number of provider calls for [resource] in flight. *)
Definition in_flight (resource : string) (n : Net) : nat :=
  count (requested resource) n - count (completed resource) n.

(** The accounting that every run from the empty store keeps: per
    resource, the calls issued are the calls settled plus the one promise
    the query holds, and a query only ever holds calls of its own
    resource. *)
Definition accounted (st : Store) : Prop :=
  forall r : string,
    count (requested r) (net st) = count (completed r) (net st) + pending r st
    /\ match entry r st with
       | Some q =>
           (exists i, q_fn q = queryFn r i)
           /\ (forall p, q_promise q = Some p -> req_resource p = r)
       | None => True
       end.

(** The query of a request that the provider rejects with [reason], once
    its promise has been settled [k] times. *)
Definition attempt (resource id : string) (reason : Reason) (k : nat) : Query :=
  if k <=? retry then mkQuery Loading (Some (mkRequest resource id)) (queryFn resource id) k
  else mkQuery (Error reason) None (queryFn resource id) (S retry).

End Hook.

End DataHooks.


(** ** The layout shell  (the [Layout] component) *)
Module Layout.

Inductive Icon : Type :=
| DashboardOutlined
| LogoutOutlined
| UnorderedListOutlined.

(** The children of a [Menu.Item]: a router [Link] or plain text. *)
Inductive ItemBody : Type :=
| LinkTo (to : string) (text : string)
| Text (text : string).

Record MenuItem : Type := mkItem {
  key : string;
  icon : Icon;
  body : ItemBody
}.

Definition link_target (it : MenuItem) : option string :=
  match body it with
  | LinkTo to _ => Some to
  | Text _ => None
  end.

(** [IResourceContext]: the resource registry. *)
Record IResourceContext : Type := mkResourceContext {
  resources : list string
}.

(** [Array.prototype.map]: the result is a new array, the receiver is
    handed back as it was. *)
Definition Array_map {A B : Type} (f : A -> B) (arr : list A) : list B * list A :=
  (List.map f arr, arr).

Section Sidebar.

(** The humanize-string package. *)
Variable humanizeString : string -> string.

Definition dashboard_item : MenuItem :=
  mkItem "dashboard" DashboardOutlined (LinkTo "/" "Dashboard").

Definition resource_item (item : string) : MenuItem :=
  mkItem ("resource-" +:+ item) UnorderedListOutlined
         (LinkTo ("/resources/" +:+ item) (humanizeString item)).

Definition logout_item : MenuItem :=
  mkItem "logout" LogoutOutlined (Text "Logout").

(** The children of [<Menu>], and the registry after the render. *)
Definition Menu (ctx : IResourceContext) : list MenuItem * IResourceContext :=
  let '(items, arr) := Array_map resource_item (resources ctx) in
  ([dashboard_item] ++ items ++ [logout_item], mkResourceContext arr).

End Sidebar.

(** The menu entries that link to the page of the resource [name]. *)
Definition entries_for (name : string) (items : list MenuItem) : list MenuItem :=
  List.filter (fun it => bool_decide (link_target it = Some ("/resources/" +:+ name))) items.

(** What a menu click can do to the outside world. *)
Inductive Effect : Type :=
| ConsoleLog (msg : string)
| AuthLogout (promise : nat)
| HistoryPush (path : string).

(** A [then] callback, as the effects it performs when it runs. *)
Definition Callback : Type := unit -> list Effect.

(** The world the handler runs in: what happened so far, the callbacks
    waiting on promises, and the number of the next promise. *)
Record World : Type := mkWorld {
  trace : list Effect;
  reactions : list (nat * Callback);
  next_promise : nat
}.

Definition initial : World := mkWorld [] [] 0.

Definition console_log (msg : string) (w : World) : World :=
  mkWorld (trace w ++ [ConsoleLog msg]) (reactions w) (next_promise w).

(** [logout({})] of the auth provider: starts the operation and returns
    its promise. *)
Definition logout (w : World) : nat * World :=
  let p := next_promise w in
  (p, mkWorld (trace w ++ [AuthLogout p]) (reactions w) (S p)).

(** [promise.then(onFulfilled)] *)
Definition promise_then (p : nat) (onFulfilled : Callback) (w : World) : World :=
  mkWorld (trace w) (reactions w ++ [(p, onFulfilled)]) (next_promise w).

(** [menuOnClick] *)
Definition menuOnClick (key : string) (w : World) : World :=
  let w := console_log ("clicked -> " +:+ key) w in
  if String.eqb key "logout" then
    let '(p, w) := logout w in
    promise_then p (fun _ => [HistoryPush "/login"]) w
  else w.

Definition waits_on (p : nat) (r : nat * Callback) : bool := Nat.eqb (fst r) p.

(** The promise [p] settles: on success its callbacks run in the order
    they were attached; on failure (no rejection handler was attached)
    they are dropped. *)
Definition promise_settled {A E : Type} (p : nat) (outcome : Settled A E) (w : World) : World :=
  let ready := List.filter (waits_on p) (reactions w) in
  let rest := List.filter (fun r => negb (waits_on p r)) (reactions w) in
  match outcome with
  | Fulfilled _ =>
      mkWorld (trace w ++ List.concat (List.map (fun r => snd r tt) ready)) rest (next_promise w)
  | Rejected _ => mkWorld (trace w) rest (next_promise w)
  end.

(** Every callback waits on a promise that was already created. *)
Definition well_formed (w : World) : Prop :=
  Forall (fun r => fst r < next_promise w) (reactions w).

Definition is_logout (e : Effect) : bool :=
  match e with AuthLogout _ => true | _ => false end.

Definition is_push (e : Effect) : bool :=
  match e with HistoryPush _ => true | _ => false end.

End Layout.


(** ** The unsaved-changes prompt  (nextjs [Prompt], router-provider reference) *)
Module Prompt.

(** [PromptProps]; [setWarnWhen] is optional: [true] when it is supplied. *)
Record PromptProps : Type := mkProps {
  message : string;
  when : bool;
  setWarnWhen : bool
}.

Inductive Effect : Type :=
| Confirm (msg : string)
| SetWarnWhen (warnWhen : bool)
| Emit (event : string).

Inductive Completion : Type :=
| Returns
| Throws (err : string).

Section Handler.

(** [window.confirm]: the user's answer to the dialog. *)
Variable confirm : string -> bool.

(** The listener [routeChangeStart], closed over the props of the render
    that registered it. *)
Definition routeChangeStart (props : PromptProps) : list Effect * Completion :=
  if when props then
    let allowTransition := confirm (message props) in
    if allowTransition then
      (Confirm (message props) :: (if setWarnWhen props then [SetWarnWhen false] else []),
       Returns)
    else
      ([Confirm (message props); Emit "routeChangeError"],
       Throws "Abort route change due to unsaved changes prompt. Ignore this error.")
  else ([], Returns).

(** The listener of the component instance registered on
    [router.events], if any. *)
Definition Registration : Type := option PromptProps.

(** A render of [<Prompt>]: [useEffect] with dependencies [[when]] runs on
    mount, and afterwards only when [when] changed (cleanup [off], then
    [on] with the new closure). *)
Definition render (props : PromptProps) (inst : Registration) : Registration :=
  match inst with
  | None => Some props
  | Some registered =>
      if Bool.eqb (when registered) (when props) then Some registered
      else Some props
  end.

Definition unmount (inst : Registration) : Registration := None.

(** The router emits [routeChangeStart]; a listener that throws aborts
    the route change. *)
Definition route_change (inst : Registration) : list Effect * Completion :=
  match inst with
  | None => ([], Returns)
  | Some registered => routeChangeStart registered
  end.

End Handler.

Definition blocked (c : Completion) : bool :=
  match c with Returns => false | Throws _ => true end.

Definition is_confirm (e : Effect) : bool :=
  match e with Confirm _ => true | _ => false end.

End Prompt.


(** ** A concrete backend, used to run the hook on examples *)
Module Scenario.
Import DataHooks.

(** Post 1 and post 2 exist; anything else is refused by the backend. *)
Definition backend : IDataContext string string :=
  mkDataContext (fun resource id =>
    if String.eqb resource "posts" && String.eqb id "1" then Fulfilled "post one"
    else if String.eqb resource "posts" && String.eqb id "2" then Fulfilled "post two"
    else Rejected "404").

(** Two components mounted one after the other, for post 1 and post 2,
    before the request of the first has settled. *)
Definition two_ids : Store string string :=
  run backend 3 [Render "posts" "1"; Render "posts" "2"] empty_store.

Definition two_ids_settled : Store string string :=
  run backend 3 [Settle "posts" "1"] two_ids.


End Scenario.


(** ** Runs of the hook, of the layout and of the prompt *)
Module Runs.
Import DataHooks.

(** [defaultSelectedKeys] of the sidebar [<Menu>]. *)
Definition defaultSelectedKeys : list string := ["dashboard"].

(** What happens to the layout: a click on a menu entry, or the
    settlement of a promise of the auth provider. *)
Inductive Action : Type :=
| Click (key : string)
| Settles (promise : nat) (outcome : Settled unit string).

Definition act (a : Action) (w : Layout.World) : Layout.World :=
  match a with
  | Click key => Layout.menuOnClick key w
  | Settles p outcome => Layout.promise_settled p outcome w
  end.

Definition play (actions : list Action) (w : Layout.World) : Layout.World :=
  fold_left (fun w a => act a w) actions w.

Definition is_log (e : Layout.Effect) : bool :=
  match e with Layout.ConsoleLog _ => true | _ => false end.

Definition occurrences (p : Layout.Effect -> bool) (w : Layout.World) : nat :=
  length (List.filter p (Layout.trace w)).

(** The clicks among the actions that hit the logout entry. *)
Definition logout_clicks (actions : list Action) : nat :=
  length (List.filter (fun a => match a with
                                | Click key => String.eqb key "logout"
                                | Settles _ _ => false
                                end) actions).

Definition all_clicks (actions : list Action) : nat :=
  length (List.filter (fun a => match a with Click _ => true | Settles _ _ => false end)
                      actions).

(** Every callback waiting on a promise is the navigation to the login
    page, and so is every navigation made so far. *)
Definition tidy (w : Layout.World) : Prop :=
  Forall (fun r => snd r tt = [Layout.HistoryPush "/login"]) (Layout.reactions w)
  /\ Forall (fun e => Layout.is_push e = true -> e = Layout.HistoryPush "/login")
            (Layout.trace w).

(** Besides, every callback waits on a promise of its own, created
    earlier by a logout call that is on the trace. *)
Definition orderly (w : Layout.World) : Prop :=
  tidy w
  /\ Layout.well_formed w
  /\ List.NoDup (List.map fst (Layout.reactions w))
  /\ Forall (fun r => In (Layout.AuthLogout (fst r)) (Layout.trace w))
            (Layout.reactions w).

(** Successive renders of one [<Prompt>] instance. *)
Definition renders (ps : list Prompt.PromptProps) (inst : Prompt.Registration)
  : Prompt.Registration :=
  fold_left (fun inst p => Prompt.render p inst) ps inst.

End Runs.


(** ** The nextjs router adapter  (router-provider reference) *)
Module NextRouter.

(** JavaScript [a && b] for a string [a]: the empty string is the only
    falsy string, and is then the value of the expression. *)
Definition and_then (a b : string) : string :=
  if String.eqb a "" then a else b.

Section Adapter.

(** The parsed query object, and the qs package's [stringify]. *)
Variable ParsedUrlQuery : Type.
Variable qs_stringify : ParsedUrlQuery -> string.

(** What [useRouter()] gives. *)
Record Router : Type := mkRouter {
  pathname : string;
  query : ParsedUrlQuery
}.

Record Location : Type := mkLocation {
  loc_pathname : string;
  search : string
}.

(** [useLocation] *)
Definition useLocation (router : Router) : Location :=
  let queryParams := qs_stringify (query router) in
  mkLocation (pathname router) (and_then queryParams ("?" +:+ queryParams)).

(** [useParams] *)
Definition useParams (router : Router) : ParsedUrlQuery := query router.

End Adapter.

End NextRouter.


(** ** The sample auth provider  (custom-pages guide) *)
Module AuthProvider.

(** [params.username]: a string, or anything else ([None]). *)
Record LoginParams : Type := mkParams { username : option string }.

(** [v === s] for a string [s]. *)
Definition strict_eq (v : option string) (s : string) : bool :=
  match v with
  | Some u => String.eqb u s
  | None => false
  end.

(** Truthiness of what [localStorage.getItem] returns: [null] and the
    empty string are falsy. *)
Definition truthy (v : option string) : bool :=
  match v with
  | Some u => negb (String.eqb u "")
  | None => false
  end.

Definition login (params : LoginParams) (localStorage : gmap string string)
  : Settled unit unit * gmap string string :=
  if strict_eq (username params) "admin" then
    match username params with
    | Some u => (Fulfilled tt, <["username" := u]> localStorage)
    | None => (Fulfilled tt, localStorage)
    end
  else (Rejected tt, localStorage).

Definition logout (localStorage : gmap string string)
  : Settled unit unit * gmap string string :=
  (Fulfilled tt, delete "username" localStorage).

Definition checkError : Settled unit unit := Fulfilled tt.

Definition checkAuth (localStorage : gmap string string) : Settled unit unit :=
  if truthy (localStorage !! "username") then Fulfilled tt else Rejected tt.

Definition getPermissions : Settled (list string) unit := Fulfilled ["admin"].

Definition fulfilled {A E : Type} (o : Settled A E) : bool :=
  match o with Fulfilled _ => true | Rejected _ => false end.

(** Calls made to the provider, one after the other. *)
Inductive Call : Type :=
| Login (params : LoginParams)
| Logout
| CheckAuth
| CheckError
| GetPermissions.

Definition perform (c : Call) (localStorage : gmap string string) : gmap string string :=
  match c with
  | Login params => snd (login params localStorage)
  | Logout => snd (logout localStorage)
  | CheckAuth | CheckError | GetPermissions => localStorage
  end.

Definition perform_all (calls : list Call) (localStorage : gmap string string)
  : gmap string string :=
  fold_left (fun ls c => perform c ls) calls localStorage.

(** Whether a session is open after [calls], when [before] tells whether
    one was open before them. *)
Definition signed_in (calls : list Call) (before : bool) : bool :=
  fold_left (fun s c => match c with
                        | Login params => strict_eq (username params) "admin" || s
                        | Logout => false
                        | CheckAuth | CheckError | GetPermissions => s
                        end) calls before.

(** The logout entry of the layout, wired to this provider: the click,
    then the settlement of the promise [logout] returned. *)
Definition logout_flow (w : Layout.World) (localStorage : gmap string string)
  : Layout.World * gmap string string :=
  let p := Layout.next_promise w in
  let w1 := Layout.menuOnClick "logout" w in
  let '(outcome, ls) := logout localStorage in
  (Layout.promise_settled p outcome w1, ls).

End AuthProvider.


(** ** The post review page  (custom-pages guide) *)
Module PostReview.

Record ICategory : Type := mkCategory { cat_id : string; cat_title : string }.

Record IPost : Type := mkPost {
  id : string;
  title : string;
  content : string;
  status : string;
  category : ICategory
}.

(** An evaluation returns, or throws. *)
Inductive Result (A : Type) : Type :=
| Ok (a : A)
| Throws (err : string).
Arguments Ok {A} a.
Arguments Throws {A} err.

Definition bind {A B : Type} (r : Result A) (k : A -> Result B) : Result B :=
  match r with
  | Ok a => k a
  | Throws err => Throws err
  end.

(** [data?.data[0]]: undefined while there is no data, and for an empty
    list. *)
Definition first_record (data : option (list IPost)) : option IPost :=
  match data with
  | Some (r :: _) => Some r
  | Some [] => None
  | None => None
  end.

(** [record!.category]: the assertion is erased, the member access of
    undefined throws. *)
Definition member_category (record : option IPost) : Result ICategory :=
  match record with
  | Some r => Ok (category r)
  | None => Throws "TypeError"
  end.

(** [!!record] *)
Definition to_boolean (record : option IPost) : bool :=
  match record with Some _ => true | None => false end.

(** The argument of [useOne]. *)
Record UseOneProps : Type := mkUseOne {
  resource : string;
  one_id : string;
  enabled : bool
}.

Definition useOne_props (record : option IPost) : Result UseOneProps :=
  bind (member_category record) (fun c =>
    Ok (mkUseOne "categories" (cat_id c) (to_boolean record))).

(** The argument of [mutate]. *)
Record MutateVariables : Type := mkMutate {
  m_resource : string;
  m_id : string;
  values : IPost
}.

(** [{ ...item, status }] *)
Definition with_status (item : IPost) (status : string) : IPost :=
  mkPost (id item) (title item) (content item) status (category item).

(** [handleUpdate]: the calls of [mutate] it makes. *)
Definition handleUpdate (item : IPost) (status : string) : list MutateVariables :=
  [mkMutate "posts" (id item) (with_status item status)].

(** [() => record && handleUpdate(record, status)] *)
Definition onClick (record : option IPost) (status : string) : list MutateVariables :=
  match record with
  | Some r => handleUpdate r status
  | None => []
  end.

(** What the page shows and does once it has rendered. *)
Record View : Type := mkView {
  recordItemId : option string;
  isLoading_prop : bool;
  buttonDisabled : bool;
  reject : list MutateVariables;
  approve : list MutateVariables;
  status_text : option string;
  title_text : option string;
  category_text : option string;
  content_value : option string;
  one : UseOneProps
}.

(** [PostReview]: [data] and [isLoading] come from [useList],
    [categoryData] and [categoryIsLoading] from [useOne],
    [mutateIsLoading] from [useUpdate]. *)
Definition PostReview (data : option (list IPost)) (isLoading : bool)
    (categoryData : option ICategory) (categoryIsLoading mutateIsLoading : bool)
  : Result View :=
  let record := first_record data in
  bind (useOne_props record) (fun props =>
    let buttonDisabled := isLoading || categoryIsLoading || mutateIsLoading in
    Ok (mkView (option_map id record)
               (isLoading || categoryIsLoading)
               buttonDisabled
               (onClick record "rejected")
               (onClick record "published")
               (option_map status record)
               (option_map title record)
               (option_map cat_title categoryData)
               (option_map content record)
               props)).

End PostReview.


(** ** The unique-title rule  (custom form validation guide) *)
Module UniqueTitle.

Record PostUniqueCheckResponse : Type := mkResponse { isAvailable : bool }.

(** [!value] for the value of a form field: undefined or the empty string. *)
Definition not_value (value : option string) : bool :=
  match value with
  | Some v => String.eqb v ""
  | None => true
  end.

Section Rule.

(** The [data] of the query result of the n-th call of [refetch];
    undefined when the request failed. *)
Variable refetch_data : nat -> option PostUniqueCheckResponse.

(** [await refetch()]; the state counts the calls made so far. *)
Definition refetch (calls : nat) : option PostUniqueCheckResponse * nat :=
  (refetch_data calls, S calls).

(** [validator] *)
Definition validator (value : option string) (calls : nat)
  : Settled unit string * nat :=
  if not_value value then (Fulfilled tt, calls)
  else
    let '(data, calls) := refetch calls in
    match data with
    | Some d =>
        if isAvailable d then (Fulfilled tt, calls)
        else (Rejected "'title' is must be unique", calls)
    | None => (Rejected "'title' is must be unique", calls)
    end.

End Rule.

End UniqueTitle.


(** * Properties of the data hook *)
Module DataHooksFacts.
Import DataHooks.

Section Facts.
Context {Payload Reason : Type}.
Variable DataContext : IDataContext Payload Reason.
Variable retry : nat.

Abbreviation Store := (Store Payload Reason).
Abbreviation Query := (Query Payload Reason).
Abbreviation run := (run DataContext retry).
Abbreviation step := (step DataContext retry).
Abbreviation settle := (settle DataContext retry).

(** ** The key *)

Lemma queryKey_resource (r1 i1 r2 i2 : string) :
  queryKey r1 i1 = queryKey r2 i2 <-> r1 = r2.
Proof.
  unfold queryKey. split.
  - intros H. simpl in H. by simplify_eq.
  - by intros ->.
Qed.

Lemma queryKey_ne (r1 i1 r2 i2 : string) :
  r1 <> r2 -> queryKey r1 i1 <> queryKey r2 i2.
Proof. intros Hne Heq. by apply Hne, (queryKey_resource r1 i1 r2 i2). Qed.

(** ** One hook invocation *)

Lemma useOne_hit (r i : string) (st : Store) (q : Query) :
  cache st !! queryKey r i = Some q ->
  useOne r i st = (q_status q, st).
Proof. intros H. unfold useOne, useQuery. by rewrite H. Qed.

Lemma useOne_miss (r i : string) (st : Store) :
  cache st !! queryKey r i = None ->
  useOne r i st =
    (Loading,
     mkStore (<[queryKey r i := fresh_query r i]> (cache st))
             (net st ++ [Requested (mkRequest r i)])).
Proof. intros H. unfold useOne, useQuery. by rewrite H. Qed.

(** After an invocation the key has an entry: the one that was there, or
    the one this invocation created. *)
Lemma useOne_entry (r i : string) (st : Store) :
  cache (snd (useOne r i st)) !! queryKey r i =
    Some (match cache st !! queryKey r i with
          | Some q => q
          | None => fresh_query r i
          end).
Proof.
  destruct (cache st !! queryKey r i) as [q|] eqn:E.
  - by rewrite (useOne_hit _ _ _ _ E).
  - rewrite (useOne_miss _ _ _ E). simpl. by rewrite lookup_insert_eq.
Qed.

Lemma useOne_other (r i : string) (k : string) (st : Store) :
  k <> queryKey r i ->
  cache (snd (useOne r i st)) !! k = cache st !! k.
Proof.
  intros Hk. destruct (cache st !! queryKey r i) as [q|] eqn:E.
  - by rewrite (useOne_hit _ _ _ _ E).
  - rewrite (useOne_miss _ _ _ E). simpl. by rewrite lookup_insert_ne.
Qed.

Lemma settle_other (k k' : string) (st : Store) :
  k <> k' -> cache (settle k' st) !! k = cache st !! k.
Proof.
  intros Hk. unfold DataHooks.settle.
  destruct (cache st !! k') as [q|]; [|done].
  destruct (q_promise q) as [p|]; [|done].
  destruct (settles DataContext p).
  - simpl. by rewrite lookup_insert_ne.
  - destruct (q_failureCount q <? retry).
    + destruct (q_fn q tt _). simpl. by rewrite lookup_insert_ne.
    + simpl. by rewrite lookup_insert_ne.
Qed.

Lemma run_snoc (steps : list Step) (s : Step) (st : Store) :
  run (steps ++ [s]) st = step s (run steps st).
Proof. unfold DataHooks.run. by rewrite fold_left_app. Qed.

Lemma run_app (xs ys : list Step) (st : Store) :
  run (xs ++ ys) st = run ys (run xs st).
Proof. unfold DataHooks.run. by rewrite fold_left_app. Qed.

Lemma run_cons (s : Step) (steps : list Step) (st : Store) :
  run (s :: steps) st = run steps (step s st).
Proof. done. Qed.

(** ** Counting the provider calls of a run *)

Lemma count_snoc (p : Event -> bool) (n : Net) (e : Event) :
  count p (n ++ [e]) = count p n + (if p e then 1 else 0).
Proof.
  unfold count. rewrite List.filter_app, length_app. simpl.
  by destruct (p e).
Qed.

Lemma accounted_empty : accounted (empty_store : Store).
Proof. intros r. unfold pending, entry. simpl. by rewrite lookup_empty. Qed.

Lemma requested_same (r i : string) :
  requested r (Requested (mkRequest r i)) = true.
Proof. simpl. by apply bool_decide_eq_true. Qed.

Lemma requested_diff (r r' i : string) :
  r' <> r -> requested r (Requested (mkRequest r' i)) = false.
Proof. intros H. simpl. by apply bool_decide_eq_false. Qed.

Lemma accounted_useOne (r' i' : string) (st : Store) :
  accounted st -> accounted (snd (useOne r' i' st)).
Proof.
  intros Hacc. destruct (cache st !! queryKey r' i') as [q|] eqn:E.
  { by rewrite (useOne_hit _ _ _ _ E). }
  rewrite (useOne_miss _ _ _ E). intros r.
  destruct (Hacc r) as [Hcount Hentry].
  unfold pending, entry in *. simpl.
  destruct (decide (r = r')) as [->|Hne].
  - change (queryKey r' "") with (queryKey r' i') in *.
    rewrite E in Hcount. rewrite lookup_insert_eq. simpl.
    rewrite count_snoc, requested_same, count_snoc. simpl. split; [lia|].
    split; [by exists i'|]. intros p [= <-]. done.
  - rewrite lookup_insert_ne by (by apply queryKey_ne).
    rewrite !count_snoc, requested_diff by done. simpl.
    split; [lia | done].
Qed.

Lemma accounted_settle (r' i' : string) (st : Store) :
  accounted st -> accounted (settle (queryKey r' i') st).
Proof.
  intros Hacc. unfold DataHooks.settle.
  destruct (cache st !! queryKey r' i') as [q|] eqn:E; [|done].
  destruct (q_promise q) as [p|] eqn:Ep; [|done].
  assert (Hown : (exists i, q_fn q = queryFn r' i) /\ req_resource p = r').
  { destruct (Hacc r') as [_ H]. unfold entry in H.
    change (queryKey r' "") with (queryKey r' i') in H. rewrite E in H.
    destruct H as [Hfn Hp]. split; [done | by apply Hp]. }
  destruct Hown as [[i Hfn] Hp].
  assert (Hstep : forall (q' : Query) (n' : Net) (extra : nat),
    (forall r, count (requested r) n' =
               count (requested r) (net st) + (if decide (r = r') then extra else 0)) ->
    (forall r, count (completed r) n' =
               count (completed r) (net st) + (if decide (r = r') then 1 else 0)) ->
    q_fn q' = q_fn q ->
    match q_promise q' with Some _ => 1 | None => 0 end = extra ->
    (forall p', q_promise q' = Some p' -> req_resource p' = r') ->
    accounted (mkStore (<[queryKey r' i' := q']> (cache st)) n')).
  { intros q' n' extra Hreq Hcomp Hq Hpend Hp' r.
    destruct (Hacc r) as [Hcount Hentry].
    unfold pending, entry in *. simpl. rewrite Hreq, Hcomp.
    destruct (decide (r = r')) as [->|Hne].
    - change (queryKey r' "") with (queryKey r' i') in *.
      rewrite E, Ep in Hcount. rewrite lookup_insert_eq.
      split; [lia|]. split; [exists i; congruence | done].
    - rewrite lookup_insert_ne by (by apply queryKey_ne).
      split; [lia | done]. }
  assert (Hcompleted : forall r, count (completed r) (net st ++ [Completed p]) =
            count (completed r) (net st) + (if decide (r = r') then 1 else 0)).
  { intros r. rewrite count_snoc. simpl. rewrite Hp.
    destruct (decide (r = r')) as [->|Hne].
    - by rewrite bool_decide_eq_true_2.
    - by rewrite bool_decide_eq_false_2. }
  assert (Hrequested : forall r, count (requested r) (net st ++ [Completed p]) =
            count (requested r) (net st) + 0).
  { intros r. rewrite count_snoc. done. }
  destruct (settles DataContext p) as [d|e].
  - apply (Hstep _ _ 0); try done.
    intros r. rewrite Hrequested. by destruct (decide (r = r')).
  - destruct (q_failureCount q <? retry).
    + rewrite Hfn. simpl.
      apply (Hstep _ _ 1); try done.
      * intros r. rewrite count_snoc, Hrequested.
        destruct (decide (r = r')) as [->|Hne].
        -- rewrite requested_same. lia.
        -- rewrite requested_diff by done. lia.
      * intros r. rewrite count_snoc. simpl. by rewrite Hcompleted, Nat.add_0_r.
      * intros p' [= <-]. done.
    + apply (Hstep _ _ 0); try done.
      intros r. rewrite Hrequested. by destruct (decide (r = r')).
Qed.

Lemma accounted_run (steps : list Step) (st : Store) :
  accounted st -> accounted (run steps st).
Proof.
  revert st. induction steps as [|s steps IH]; intros st Hacc; [done|].
  rewrite run_cons. apply IH. destruct s as [r i|r i]; simpl.
  - by apply accounted_useOne.
  - by apply accounted_settle.
Qed.

Lemma accounted_in_flight (st : Store) (r : string) :
  accounted st -> in_flight r (net st) = pending r st /\ pending r st <= 1.
Proof.
  intros Hacc. destruct (Hacc r) as [Hcount _]. unfold in_flight.
  assert (pending r st <= 1).
  { unfold pending. destruct (entry r st) as [q|]; [|lia].
    destruct (q_promise q); lia. }
  lia.
Qed.

(** ** A request that the provider rejects *)

Lemma settlements_cons_same (r i : string) (steps : list Step) :
  settlements r (Settle r i :: steps) = S (settlements r steps).
Proof. unfold settlements. simpl. by rewrite bool_decide_eq_true_2. Qed.

Lemma settlements_cons_other (r r' i : string) (steps : list Step) :
  r' <> r -> settlements r (Settle r' i :: steps) = settlements r steps.
Proof. intros H. unfold settlements. simpl. by rewrite bool_decide_eq_false_2. Qed.

Lemma settlements_cons_render (r r' i : string) (steps : list Step) :
  settlements r (Render r' i :: steps) = settlements r steps.
Proof. done. Qed.

Local Arguments Nat.leb : simpl never.
Local Arguments Nat.ltb : simpl never.

Lemma settle_attempt (r i : string) (E : Reason) (k : nat) (st : Store) :
  getOne DataContext r i = Rejected E ->
  cache st !! queryKey r i = Some (attempt retry r i E k) ->
  cache (settle (queryKey r i) st) !! queryKey r i = Some (attempt retry r i E (S k)).
Proof.
  intros Hrej Hq. unfold DataHooks.settle. rewrite Hq. unfold attempt.
  destruct (Nat.leb_spec k retry) as [Hk|Hk]; simpl.
  - unfold settles. simpl. rewrite Hrej.
    destruct (Nat.ltb_spec k retry) as [Hlt|Hge]; simpl.
    + rewrite lookup_insert_eq.
      destruct (Nat.leb_spec (S k) retry); [done | lia].
    + rewrite lookup_insert_eq.
      destruct (Nat.leb_spec (S k) retry); [lia|].
      by replace k with retry by lia.
  - rewrite Hq. unfold attempt.
    destruct (Nat.leb_spec k retry); [lia|].
    destruct (Nat.leb_spec (S k) retry); [lia | done].
Qed.

Lemma rejected_run (r i : string) (E : Reason) :
  getOne DataContext r i = Rejected E ->
  forall (steps : list Step) (st : Store) (k : nat),
    cache st !! queryKey r i = Some (attempt retry r i E k) ->
    cache (run steps st) !! queryKey r i =
      Some (attempt retry r i E (k + settlements r steps)).
Proof.
  intros Hrej. induction steps as [|s steps IH]; intros st k Hq.
  { unfold settlements. simpl. by rewrite Nat.add_0_r. }
  rewrite run_cons. destruct s as [r' i'|r' i']; simpl.
  - rewrite settlements_cons_render. apply IH.
    destruct (decide (r' = r)) as [->|Hne].
    + assert (Hq' : cache st !! queryKey r i' = Some (attempt retry r i E k))
        by exact Hq.
      by rewrite (useOne_hit r i' st _ Hq').
    + rewrite useOne_other; [done | by apply queryKey_ne].
  - destruct (decide (r' = r)) as [->|Hne].
    + rewrite settlements_cons_same, Nat.add_succ_r, <- Nat.add_succ_l.
      apply IH. exact (settle_attempt r i E k st Hrej Hq).
    + rewrite settlements_cons_other by done. apply IH.
      rewrite settle_other; [done | by apply queryKey_ne].
Qed.

Lemma reports_entry (r i : string) (st : Store) (q : Query) :
  cache st !! queryKey r i = Some q -> reports r i st = q_status q.
Proof. intros H. unfold reports. by rewrite (useOne_hit _ _ _ _ H). Qed.

(** On a key without an entry, the payload the provider resolves with is
    what the hook reports once the promise has settled. *)
Lemma useOne_fresh_resolves (r i : string) (P : Payload) (st : Store) :
  cache st !! queryKey r i = None ->
  getOne DataContext r i = Fulfilled P ->
  reports r i (settle (queryKey r i) (snd (useOne r i st))) = Success P.
Proof.
  intros Hmiss Hres. rewrite (useOne_miss _ _ _ Hmiss). simpl.
  unfold DataHooks.settle. simpl. rewrite lookup_insert_eq. simpl.
  unfold settles. simpl. rewrite Hres.
  erewrite reports_entry; [|simpl; apply lookup_insert_eq]. done.
Qed.

(** An entry without a promise in flight is what every later invocation
    for its resource reports, whatever the id. *)
Lemma idle_entry_stays (r i : string) (q : Query) :
  q_promise q = None ->
  forall (steps : list Step) (st : Store),
    cache st !! queryKey r i = Some q ->
    cache (run steps st) !! queryKey r i = Some q.
Proof.
  intros Hidle. induction steps as [|s steps IH]; intros st Hq; [done|].
  rewrite run_cons. apply IH. destruct s as [r' i'|r' i']; simpl.
  - destruct (decide (r' = r)) as [->|Hne].
    + assert (Hq' : cache st !! queryKey r i' = Some q) by exact Hq.
      by rewrite (useOne_hit r i' st _ Hq').
    + rewrite useOne_other; [done | by apply queryKey_ne].
  - destruct (decide (r' = r)) as [->|Hne].
    + assert (Hq' : cache st !! queryKey r i' = Some q) by exact Hq.
      unfold DataHooks.settle. by rewrite Hq', Hidle.
    + rewrite settle_other; [done | by apply queryKey_ne].
Qed.

(** ** The statements of the specification *)

(** C8. For every resource name and every pair of ids, [useOne] computes
    the same query key, the string resource/getOne/<resource>: the id does
    not contribute to it.  Hence an invocation for a second id of the same
    resource finds the entry that the invocation for the first id left
    under the key, reports the state of that entry and issues no provider
    call of its own. *)
Theorem useOne_key_ignores_id (r id1 id2 : string) (st : Store) :
  queryKey r id1 = "resource/getOne/" +:+ r
  /\ queryKey r id1 = queryKey r id2
  /\ let st1 := snd (useOne r id1 st) in
     let q := match cache st !! queryKey r id1 with
              | Some q0 => q0
              | None => fresh_query r id1
              end in
     cache st1 !! queryKey r id2 = Some q
     /\ useOne r id2 st1 = (q_status q, st1).
Proof.
  split; [done|]. split; [done|]. simpl.
  pose proof (useOne_entry r id1 st) as Hq.
  split; [exact Hq|].
  apply useOne_hit. exact Hq.
Qed.

(** C9. The function [useOne] hands to the query layer calls the
    provider's [getOne] once, with the resource and the id the hook
    received, in that order, and its promise settles exactly as the
    provider's call does: nothing is transformed.  The only provider call
    a hook invocation makes is the one of this function. *)
Theorem useOne_queryFn_forwards (r i : string) (n : Net) (st : Store) :
  queryFn r i tt n = call_getOne r i n
  /\ req_resource (fst (queryFn r i tt n)) = r
  /\ req_id (fst (queryFn r i tt n)) = i
  /\ snd (queryFn r i tt n) = n ++ [Requested (mkRequest r i)]
  /\ settles DataContext (fst (queryFn r i tt n)) = getOne DataContext r i
  /\ net (snd (useOne r i st)) =
       match cache st !! queryKey r i with
       | Some _ => net st
       | None => snd (queryFn r i tt (net st))
       end.
Proof.
  repeat split.
  destruct (cache st !! queryKey r i) as [q|] eqn:E.
  - by rewrite (useOne_hit _ _ _ _ E).
  - by rewrite (useOne_miss _ _ _ E).
Qed.

(** C3. Two invocations of [useOne] with the same resource and id use the
    same key and observe the same cache entry; the second one changes
    nothing, so the pair issues one provider call when the key had no
    entry and none otherwise; and in every state a run can reach, at most
    one provider call per key is in flight. *)
Theorem useOne_same_key_shared (steps more : list Step) (r i : string) :
  let st := run steps empty_store in
  let st1 := snd (useOne r i st) in
  let st2 := snd (useOne r i st1) in
  (exists q : Query,
      cache st1 !! queryKey r i = Some q
      /\ cache st2 !! queryKey r i = Some q
      /\ fst (useOne r i st) = q_status q
      /\ fst (useOne r i st1) = q_status q)
  /\ st2 = st1
  /\ net st2 = net st ++ match cache st !! queryKey r i with
                         | Some _ => []
                         | None => [Requested (mkRequest r i)]
                         end
  /\ in_flight r (net (run more st2)) <= 1.
Proof.
  intros st st1 st2.
  pose proof (useOne_entry r i st) as Hq. fold st1 in Hq.
  assert (Hst2 : st2 = st1).
  { unfold st2. by rewrite (useOne_hit _ _ _ _ Hq). }
  split; [|split; [exact Hst2|split]].
  - eexists. split; [exact Hq|]. split; [by rewrite Hst2|].
    split.
    + destruct (cache st !! queryKey r i) as [q|] eqn:E.
      * by rewrite (useOne_hit _ _ _ _ E).
      * by rewrite (useOne_miss _ _ _ E).
    + by rewrite (useOne_hit _ _ _ _ Hq).
  - rewrite Hst2. unfold st1.
    destruct (cache st !! queryKey r i) as [q|] eqn:E.
    + rewrite (useOne_hit _ _ _ _ E). simpl. by rewrite app_nil_r.
    + by rewrite (useOne_miss _ _ _ E).
  - assert (Hacc : accounted (run more st2)).
    { apply accounted_run. do 2 apply accounted_useOne.
      apply accounted_run, accounted_empty. }
    destruct (accounted_in_flight _ r Hacc) as [Heq Hle]. by rewrite Heq.
Qed.

(** On a key without an entry, and for a provider that rejects the
    resource and id with [E] on every attempt: the hook is pending until
    the query layer has used up its retries and then reports the failure
    state carrying [E]. *)
Lemma useOne_fresh_rejects
    (r i : string) (E : Reason) (st : Store) (steps : list Step) :
  cache st !! queryKey r i = None ->
  getOne DataContext r i = Rejected E ->
  let st' := run steps (snd (useOne r i st)) in
  reports r i st' = (if retry <? settlements r steps then Error E else Loading)
  /\ isSuccess (reports r i st') = false.
Proof.
  intros Hmiss Hrej st'.
  assert (Hq : cache st' !! queryKey r i =
               Some (attempt retry r i E (0 + settlements r steps))).
  { apply (rejected_run r i E Hrej). rewrite useOne_entry, Hmiss. done. }
  rewrite (reports_entry _ _ _ _ Hq). unfold attempt. simpl.
  destruct (Nat.leb_spec (settlements r steps) retry);
    destruct (Nat.ltb_spec retry (settlements r steps)); try lia; done.
Qed.

End Facts.
End DataHooksFacts.


(** * The hook on the concrete backend *)
Module ScenarioFacts.
Import DataHooks Scenario DataHooksFacts.

(** C1, on posts 1 and 2.  The invocation for id 2 computes the key the
    invocation for id 1 computed, finds the pending entry of id 1 under it
    and triggers no fetch: the only provider call issued is the one for
    id 1. *)
Theorem useOne_second_id_no_fetch :
  queryKey "posts" "2" = queryKey "posts" "1"
  /\ (let st1 := snd (useOne "posts" "1" (empty_store : Store string string)) in
      useOne "posts" "2" st1 = (Loading, st1)
      /\ cache st1 !! queryKey "posts" "2" = Some (fresh_query "posts" "1"))
  /\ net two_ids = [Requested (mkRequest "posts" "1")].
Proof.
  split; [reflexivity|]. split; [|reflexivity].
  pose proof (useOne_entry "posts" "1" (empty_store : Store string string)) as Hq.
  split; [|exact Hq].
  exact (useOne_hit "posts" "2" _ _ Hq).
Qed.

(** C2, on posts 1 and 2.  The provider resolves with "post two" for
    (posts, 2), yet the hook for (posts, 2), mounted while the request for
    id 1 was in flight, reports success with "post one" once that request
    has settled, and keeps reporting it in every continuation of the run;
    [getOne] is never called for id 2. *)
Theorem useOne_reports_other_payload (steps : list Step) :
  getOne backend "posts" "2" = Fulfilled "post two"
  /\ reports "posts" "2" two_ids_settled = Success "post one"
  /\ net two_ids_settled =
       [Requested (mkRequest "posts" "1"); Completed (mkRequest "posts" "1")]
  /\ reports "posts" "2" (run backend 3 steps two_ids_settled) = Success "post one".
Proof.
  split; [reflexivity|]. split; [reflexivity|]. split; [reflexivity|].
  apply (reports_entry "posts" "2" _
           (mkQuery (Success "post one") None (queryFn "posts" "1") 0)).
  apply (idle_entry_stays backend 3 "posts" "2"); reflexivity.
Qed.


End ScenarioFacts.


(** * Properties of the layout shell *)
Module LayoutFacts.
Import Layout.

Section SidebarFacts.
Variable humanizeString : string -> string.

Lemma resource_target_inj (a b : string) :
  Some ("/resources/" +:+ a) = Some ("/resources/" +:+ b) <-> a = b.
Proof.
  split; [|by intros ->]. intros H. simpl in H. by simplify_eq.
Qed.

Lemma entries_for_resources (name : string) (rs : list string) :
  length (entries_for name (List.map (resource_item humanizeString) rs)) =
  count_occ String.string_dec rs name.
Proof.
  induction rs as [|a rs IH]; [done|].
  unfold entries_for in *. simpl.
  destruct (String.string_dec a name) as [->|Hne].
  - rewrite bool_decide_eq_true_2 by done. simpl. by rewrite IH.
  - rewrite bool_decide_eq_false_2; [done|].
    intros H. by apply Hne, resource_target_inj.
Qed.

Lemma entries_for_menu (name : string) (ctx : IResourceContext) :
  length (entries_for name (fst (Menu humanizeString ctx))) =
  count_occ String.string_dec (resources ctx) name.
Proof.
  unfold Menu, Array_map. simpl. unfold entries_for. simpl.
  rewrite List.filter_app, length_app. simpl.
  rewrite <- (entries_for_resources name (resources ctx)).
  unfold entries_for. lia.
Qed.

(** C5. The link targets of the sidebar are, in this order, the dashboard,
    then /resources/<name> for the names of the registry in registry
    order, then the logout entry (which links nowhere).  A name has as
    many entries linking to /resources/<name> as it has occurrences in the
    registry, so exactly one when the names of the registry are unique;
    and the registry after the render is the registry before it. *)
Theorem sidebar_lists_registry (ctx : IResourceContext) :
  List.map link_target (fst (Menu humanizeString ctx)) =
    [Some "/"] ++ List.map (fun name => Some ("/resources/" +:+ name)) (resources ctx)
               ++ [None]
  /\ (forall name : string,
        length (entries_for name (fst (Menu humanizeString ctx))) =
        count_occ String.string_dec (resources ctx) name)
  /\ (List.NoDup (resources ctx) ->
      forall name : string, In name (resources ctx) ->
        length (entries_for name (fst (Menu humanizeString ctx))) = 1)
  /\ snd (Menu humanizeString ctx) = ctx.
Proof.
  split; [|split; [|split]].
  - unfold Menu, Array_map. simpl. f_equal.
    rewrite List.map_app, List.map_map. done.
  - intros name. apply entries_for_menu.
  - intros Hnd name Hin. rewrite entries_for_menu.
    by apply (proj1 (NoDup_count_occ' String.string_dec (resources ctx)) Hnd).
  - by destruct ctx.
Qed.

Lemma resource_key_not_logout (item : string) :
  key (resource_item humanizeString item) <> "logout".
Proof. simpl. discriminate. Qed.

End SidebarFacts.

Lemma sidebar_lists_registry_witness :
  length (entries_for "posts"
            (fst (Menu (fun s => s) (mkResourceContext ["posts"; "categories"])))) = 1.
Proof.
  apply (sidebar_lists_registry (fun s => s) (mkResourceContext ["posts"; "categories"])).
  - simpl. repeat constructor; simpl; intuition discriminate.
  - simpl. by left.
Defined.

(** ** The click handler *)

Lemma click_other (key : string) (w : World) :
  key <> "logout" ->
  menuOnClick key w = console_log ("clicked -> " +:+ key) w.
Proof.
  intros Hne. unfold menuOnClick.
  by rewrite (proj2 (String.eqb_neq key "logout") Hne).
Qed.

Lemma no_reaction_on_next (w : World) :
  well_formed w -> List.filter (waits_on (next_promise w)) (reactions w) = [].
Proof.
  unfold well_formed. induction (reactions w) as [|r rs IH]; [done|].
  intros Hwf. apply Forall_cons in Hwf as [Hr Hrs]. simpl.
  unfold waits_on at 1. destruct (Nat.eqb_spec (fst r) (next_promise w)); [lia|].
  by apply IH.
Qed.

Lemma well_formed_initial : well_formed initial.
Proof. constructor. Qed.

Lemma well_formed_click (key : string) (w : World) :
  well_formed w -> well_formed (menuOnClick key w).
Proof.
  unfold well_formed, menuOnClick. intros Hwf.
  destruct (String.eqb key "logout"); simpl; [|done].
  apply Forall_app. split.
  - eapply Forall_impl; [exact Hwf|]. simpl. lia.
  - repeat constructor.
Qed.

Lemma well_formed_settled {A E : Type} (p : nat) (o : Settled A E) (w : World) :
  well_formed w -> well_formed (promise_settled p o w).
Proof.
  unfold well_formed, promise_settled. intros Hwf.
  assert (Forall (fun r => fst r < next_promise w)
            (List.filter (fun r => negb (waits_on p r)) (reactions w))).
  { apply List.Forall_forall. intros r Hin. apply List.filter_In in Hin as [Hin _].
    by apply (proj1 (List.Forall_forall _ _) Hwf). }
  by destruct o.
Qed.

(** C6. A click on the logout entry logs the click and invokes the auth
    provider's logout, and nothing else: no navigation yet.  The
    navigation to /login is the one callback waiting on the promise of
    that logout call; it runs when the promise is fulfilled, and is
    dropped without running when the promise is rejected. *)
Theorem logout_click_then_login
    {E : Type} (reason : E) (w : World) (Hwf : well_formed w) :
  let p := next_promise w in
  let w1 := menuOnClick "logout" w in
  trace w1 = trace w ++ [ConsoleLog "clicked -> logout"; AuthLogout p]
  /\ List.map (fun r => snd r tt) (List.filter (waits_on p) (reactions w1)) =
       [[HistoryPush "/login"]]
  /\ trace (promise_settled p (Fulfilled tt : Settled unit E) w1) =
       trace w1 ++ [HistoryPush "/login"]
  /\ trace (promise_settled p (Rejected reason : Settled unit E) w1) = trace w1
  /\ List.filter (waits_on p)
       (reactions (promise_settled p (Rejected reason : Settled unit E) w1)) = [].
Proof.
  intros p w1.
  assert (Hready : List.filter (waits_on p) (reactions w1) =
                   [(p, fun _ : unit => [HistoryPush "/login"])]).
  { assert (Hre : reactions w1 =
              reactions w ++ [(p, fun _ : unit => [HistoryPush "/login"])]) by done.
    rewrite Hre, List.filter_app. unfold p at 1.
    rewrite (no_reaction_on_next w Hwf). simpl.
    unfold waits_on. simpl. by rewrite Nat.eqb_refl. }
  split; [|split; [|split; [|split]]].
  - unfold w1, menuOnClick. simpl. by rewrite <- app_assoc.
  - by rewrite Hready.
  - unfold promise_settled. cbv zeta. cbn [trace]. by rewrite Hready.
  - done.
  - unfold promise_settled. cbv zeta. cbn [reactions].
    generalize (reactions w1). intros l.
    induction l as [|r l IH]; [done|]. simpl.
    destruct (waits_on p r) eqn:Hr; simpl; [done|]. by rewrite Hr.
Qed.

Lemma logout_click_then_login_witness :
  trace (promise_settled 0 (Fulfilled tt : Settled unit string)
           (menuOnClick "logout" initial)) =
  [ConsoleLog "clicked -> logout"; AuthLogout 0; HistoryPush "/login"].
Proof.
  assert (Hwf : well_formed initial) by constructor.
  destruct (logout_click_then_login "denied" initial Hwf) as (_ & _ & H & _).
  exact H.
Defined.

(** C10. A click on a menu entry whose key is not "logout" only logs the
    click: no callback is attached, no promise is created, and the trace
    gains neither a logout call nor a [history.push].  The keys of the
    dashboard entry and of every resource entry are such keys. *)
Theorem other_click_only_logs
    (humanizeString : string -> string) (key : string) (w : World) :
  key <> "logout" ->
  let w1 := menuOnClick key w in
  trace w1 = trace w ++ [ConsoleLog ("clicked -> " +:+ key)]
  /\ reactions w1 = reactions w
  /\ next_promise w1 = next_promise w
  /\ List.filter is_logout (trace w1) = List.filter is_logout (trace w)
  /\ List.filter is_push (trace w1) = List.filter is_push (trace w)
  /\ Layout.key dashboard_item <> "logout"
  /\ (forall item, Layout.key (resource_item humanizeString item) <> "logout").
Proof.
  intros Hne w1. unfold w1. rewrite (click_other key w Hne). simpl.
  rewrite !List.filter_app. simpl. rewrite !app_nil_r.
  repeat split; try done.
Qed.

Lemma other_click_only_logs_witness :
  trace (menuOnClick "resource-posts" initial) = [ConsoleLog "clicked -> resource-posts"].
Proof.
  apply (other_click_only_logs (fun s => s) "resource-posts" initial).
  discriminate.
Defined.

End LayoutFacts.


(** * Properties of the unsaved-changes prompt *)
Module PromptFacts.
Import Prompt.

Section Gate.
Variable confirm : string -> bool.

(** The listener registered after a render closes over the [when] of that
    render, whatever was registered before. *)
Lemma render_registers (props : PromptProps) (inst : Registration) :
  exists registered : PromptProps,
    render props inst = Some registered
    /\ when registered = when props
    /\ (registered = props \/ inst = Some registered).
Proof.
  destruct inst as [old|]; simpl.
  - destruct (Bool.eqb (when old) (when props)) eqn:E.
    + exists old. apply Bool.eqb_prop in E. auto.
    + exists props. auto.
  - exists props. auto.
Qed.

Lemma routeChangeStart_off (props : PromptProps) :
  when props = false -> routeChangeStart confirm props = ([], Returns).
Proof. intros H. unfold routeChangeStart. by rewrite H. Qed.

Lemma routeChangeStart_on (props : PromptProps) :
  when props = true ->
  List.filter is_confirm (fst (routeChangeStart confirm props)) = [Confirm (message props)]
  /\ blocked (snd (routeChangeStart confirm props)) = negb (confirm (message props)).
Proof.
  intros H. unfold routeChangeStart. rewrite H.
  destruct (confirm (message props)); simpl; [|done].
  by destruct (setWarnWhen props).
Qed.

(** C7. After a render of the prompt with flag [when], a route change
    - with the flag off: asks for no confirmation and is not blocked;
    - with the flag on: asks for exactly one confirmation, goes through
      when the user confirms (the router is not notified of an error),
      and otherwise is aborted: [routeChangeError] is emitted and the
      listener throws. *)
Theorem prompt_gated_by_when (props : PromptProps) (inst : Registration) :
  let outcome := route_change confirm (render props inst) in
  if when props then
    exists registered : PromptProps,
      render props inst = Some registered
      /\ List.filter is_confirm (fst outcome) = [Confirm (message registered)]
      /\ if confirm (message registered) then
           snd outcome = Returns
           /\ ~ In (Emit "routeChangeError") (fst outcome)
         else
           outcome =
             ([Confirm (message registered); Emit "routeChangeError"],
              Throws "Abort route change due to unsaved changes prompt. Ignore this error.")
           /\ blocked (snd outcome) = true
  else
    fst outcome = [] /\ blocked (snd outcome) = false.
Proof.
  intros outcome. unfold outcome.
  destruct (render_registers props inst) as (reg & Hreg & Hwhen & _).
  rewrite Hreg. simpl.
  destruct (when props) eqn:Hw.
  - exists reg. split; [done|].
    split; [by apply routeChangeStart_on|].
    unfold routeChangeStart. rewrite Hwhen.
    destruct (confirm (message reg)); [|done].
    split; [done|]. simpl. destruct (setWarnWhen reg); simpl; intuition discriminate.
  - by rewrite (routeChangeStart_off reg Hwhen).
Qed.

End Gate.
End PromptFacts.


(** * Further properties of the data hook *)
Module RunsFacts.
Import DataHooks Runs DataHooksFacts.

Section HookRuns.
Context {Payload Reason : Type}.
Variable DataContext : IDataContext Payload Reason.
Variable retry : nat.

Abbreviation Store := (Store Payload Reason).
Abbreviation Query := (Query Payload Reason).
Abbreviation run := (run DataContext retry).
Abbreviation step := (step DataContext retry).
Abbreviation settle := (settle DataContext retry).

Lemma queryFn_inj (r i r' i' : string) :
  queryFn r i = queryFn r' i' -> r = r' /\ i = i'.
Proof.
  intros H.
  assert (Hcall : queryFn r i tt [] = queryFn r' i' tt []) by (by rewrite H).
  unfold queryFn, call_getOne in Hcall. simpl in Hcall. by simplify_eq.
Qed.

Lemma net_useOne (r i : string) (st : Store) :
  net (snd (useOne r i st)) =
  net st ++ match entry r st with
            | Some _ => []
            | None => [Requested (mkRequest r i)]
            end.
Proof.
  unfold entry. change (queryKey r "") with (queryKey r i).
  destruct (cache st !! queryKey r i) as [q|] eqn:E.
  - rewrite (useOne_hit _ _ _ _ E). simpl. by rewrite app_nil_r.
  - by rewrite (useOne_miss _ _ _ E).
Qed.

(** The provider calls a settlement issues are calls of the function the
    query was created with. *)
Lemma net_settle (r i : string) (st : Store) :
  accounted st ->
  exists extra : Net,
    net (settle (queryKey r i) st) = net st ++ extra
    /\ forall c, In (Requested c) extra ->
         req_resource c = r
         /\ exists q, entry r st = Some q /\ q_fn q = queryFn r (req_id c).
Proof.
  intros Hacc. destruct (Hacc r) as [_ Hentry].
  unfold DataHooks.settle, entry in *. change (queryKey r "") with (queryKey r i) in *.
  destruct (cache st !! queryKey r i) as [q|] eqn:E;
    [|exists []; split; [by rewrite app_nil_r | by intros c []]].
  destruct (q_promise q) as [p|] eqn:Ep;
    [|exists []; split; [by rewrite app_nil_r | by intros c []]].
  destruct Hentry as [[i1 Hfn] _].
  destruct (settles DataContext p) as [d|e].
  - exists [Completed p]. split; [done|]. intros c [H|[]]. discriminate.
  - destruct (q_failureCount q <? retry).
    + rewrite Hfn. simpl.
      exists [Completed p; Requested (mkRequest r i1)].
      split; [by rewrite <- app_assoc|].
      intros c [H|[H|[]]]; [discriminate|]. simplify_eq. simpl.
      split; [done|]. by exists q.
    + exists [Completed p]. split; [done|]. intros c [H|[]]. discriminate.
Qed.

Lemma entry_fn_stable (r : string) (s : Step) (st : Store) (q : Query) :
  entry r st = Some q ->
  exists q', entry r (step s st) = Some q' /\ q_fn q' = q_fn q.
Proof.
  unfold entry. intros Hq. destruct s as [r' i'|r' i']; simpl.
  - destruct (decide (r' = r)) as [->|Hne].
    + assert (Hq' : cache st !! queryKey r i' = Some q) by exact Hq.
      rewrite (useOne_hit r i' st _ Hq'). by exists q.
    + rewrite useOne_other by (by apply queryKey_ne). by exists q.
  - destruct (decide (r' = r)) as [->|Hne].
    + assert (Hq' : cache st !! queryKey r i' = Some q) by exact Hq.
      unfold DataHooks.settle. rewrite Hq'.
      change (queryKey r "") with (queryKey r i').
      destruct (q_promise q) as [p|]; [|by exists q].
      destruct (settles DataContext p).
      * simpl. rewrite lookup_insert_eq. by eexists.
      * destruct (q_failureCount q <? retry).
        -- destruct (q_fn q tt _). simpl. rewrite lookup_insert_eq. by eexists.
        -- simpl. rewrite lookup_insert_eq. by eexists.
    + rewrite settle_other by (by apply queryKey_ne). by exists q.
Qed.

Lemma accounted_step (s : Step) (st : Store) :
  accounted st -> accounted (step s st).
Proof.
  intros Hacc. destruct s as [r i|r i]; simpl.
  - by apply accounted_useOne.
  - by apply accounted_settle.
Qed.

(** What a step adds to the trace of provider calls. *)
Lemma net_step (s : Step) (st : Store) :
  accounted st ->
  exists extra : Net,
    net (step s st) = net st ++ extra
    /\ forall c, In (Requested c) extra ->
         match entry (req_resource c) st with
         | Some q => q_fn q = queryFn (req_resource c) (req_id c)
         | None => s = Render (req_resource c) (req_id c)
         end.
Proof.
  intros Hacc. destruct s as [r i|r i]; simpl.
  - rewrite net_useOne. eexists. split; [done|].
    intros c Hin. destruct (entry r st) as [q|] eqn:E; [by destruct Hin|].
    destruct Hin as [H|[]]. simplify_eq. simpl. by rewrite E.
  - destruct (net_settle r i st Hacc) as (extra & Hnet & Hextra).
    exists extra. split; [done|]. intros c Hin.
    destruct (Hextra c Hin) as (<- & q & Hq & Hfn). by rewrite Hq.
Qed.

(** The entry of a resource after a step is the one from before, with
    its function, or the one the step created. *)
Lemma entry_after_step (r : string) (s : Step) (st : Store) (q' : Query) :
  entry r (step s st) = Some q' ->
  (exists q, entry r st = Some q /\ q_fn q' = q_fn q)
  \/ (exists i, s = Render r i /\ q_fn q' = queryFn r i).
Proof.
  intros Hq'. destruct (entry r st) as [q|] eqn:E.
  - left. destruct (entry_fn_stable r s st q E) as (q2 & Hq2 & Hfn).
    exists q. split; [done|]. congruence.
  - right. unfold entry in *. destruct s as [r' i'|r' i']; simpl in Hq'.
    + destruct (decide (r' = r)) as [->|Hne].
      * exists i'. split; [done|].
        change (queryKey r "") with (queryKey r i') in *.
        rewrite useOne_entry, E in Hq'. by simplify_eq.
      * rewrite useOne_other in Hq' by (by apply queryKey_ne). congruence.
    + destruct (decide (r' = r)) as [->|Hne].
      * unfold DataHooks.settle in Hq'.
        change (queryKey r i') with (queryKey r "") in Hq'.
        rewrite E in Hq'. congruence.
      * rewrite settle_other in Hq' by (by apply queryKey_ne). congruence.
Qed.

(** Provider calls are calls some hook invocation asked for. *)
Lemma requests_were_asked (steps : list Step) :
  forall (done_ : list Step) (st : Store),
    accounted st ->
    (forall r q, entry r st = Some q ->
       exists i, q_fn q = queryFn r i /\ In (Render r i) done_) ->
    (forall c, In (Requested c) (net st) ->
       In (Render (req_resource c) (req_id c)) done_) ->
    forall c, In (Requested c) (net (run steps st)) ->
              In (Render (req_resource c) (req_id c)) (done_ ++ steps).
Proof.
  induction steps as [|s steps IH]; intros done_ st Hacc Hentry Hnet c Hin.
  { rewrite app_nil_r. by apply Hnet. }
  rewrite run_cons in Hin.
  change (done_ ++ s :: steps) with (done_ ++ [s] ++ steps). rewrite app_assoc.
  apply (IH (done_ ++ [s]) (step s st)); try done.
  - by apply accounted_step.
  - intros r q' Hq'.
    destruct (entry_after_step r s st q' Hq') as [(q & Hq & Hfn)|(i & -> & Hfn)].
    + destruct (Hentry r q Hq) as (i & Hi & Hasked).
      exists i. split; [congruence|]. apply in_or_app. by left.
    + exists i. split; [done|]. apply in_or_app. right. by left.
  - intros c' Hin'.
    destruct (net_step s st Hacc) as (extra & Heq & Hextra).
    rewrite Heq in Hin'. apply in_app_or in Hin' as [Hin'|Hin'].
    + apply in_or_app. left. by apply Hnet.
    + specialize (Hextra c' Hin').
      destruct (entry (req_resource c') st) as [q|] eqn:E.
      * destruct (Hentry _ q E) as (i & Hi & Hasked).
        rewrite Hi in Hextra. apply queryFn_inj in Hextra as [_ ->].
        apply in_or_app. by left.
      * rewrite Hextra. apply in_or_app. right. by left.
Qed.

(** X1. The keys of two hook invocations coincide exactly when their
    resources do, whatever the ids; and an invocation for one resource
    leaves what the hooks of every other resource report as it was. *)
Theorem useOne_resources_apart (r i r' i' : string) (st : Store) :
  (queryKey r i = queryKey r' i' <-> r = r')
  /\ (r <> r' -> reports r' i' (snd (useOne r i st)) = reports r' i' st
               /\ cache (snd (useOne r i st)) !! queryKey r' i' =
                  cache st !! queryKey r' i').
Proof.
  split; [apply queryKey_resource|]. intros Hne.
  assert (Hk : queryKey r' i' <> queryKey r i) by (by apply queryKey_ne).
  pose proof (useOne_other r i _ st Hk) as Hsame. split; [|done].
  unfold reports, useOne, useQuery in *. rewrite Hsame.
  by destruct (cache st !! queryKey r' i').
Qed.

(** X2. In every run of hook invocations and settlements from the empty
    store, retries of the query layer included, each call of the
    provider's [getOne] carries the resource and the id of a hook
    invocation of that run: the provider is never called with arguments
    that no hook passed. *)
Theorem getOne_only_as_asked (steps : list Step) (c : Request) :
  In (Requested c) (net (run steps empty_store)) ->
  In (Render (req_resource c) (req_id c)) steps.
Proof.
  intros Hin.
  by apply (requests_were_asked steps [] empty_store).
Qed.

End HookRuns.

Lemma useOne_resources_apart_witness :
  reports "users" "7"
    (snd (useOne "posts" "1" (empty_store : Store string string))) = Loading.
Proof.
  assert (Hne : "posts" <> "users") by discriminate.
  destruct (useOne_resources_apart "posts" "1" "users" "7"
              (empty_store : Store string string)) as [_ H].
  destruct (H Hne) as [-> _]. reflexivity.
Defined.

Lemma getOne_only_as_asked_witness :
  In (Render "users" "7")
     [Render "posts" "1"; Render "users" "7"; Settle "users" "7"; Settle "posts" "1"].
Proof.
  apply (getOne_only_as_asked Scenario.backend 3
           [Render "posts" "1"; Render "users" "7"; Settle "users" "7"; Settle "posts" "1"]
           (mkRequest "users" "7")).
  vm_compute. right. right. right. by left.
Defined.

End RunsFacts.


(** * Further properties of the layout shell *)
Module LayoutRunsFacts.
Import Layout Runs.

Section MenuFacts.
Variable humanizeString : string -> string.

Lemma menu_items (ctx : IResourceContext) :
  fst (Menu humanizeString ctx) =
  dashboard_item :: List.map (resource_item humanizeString) (resources ctx)
                 ++ [logout_item].
Proof. done. Qed.

Lemma resource_key_inj (a b : string) :
  key (resource_item humanizeString a) = key (resource_item humanizeString b) -> a = b.
Proof. simpl. intros H. by simplify_eq. Qed.

Lemma in_resource_keys (a : string) (rs : list string) :
  In (key (resource_item humanizeString a))
     (List.map key (List.map (resource_item humanizeString) rs ++ [logout_item]))
  <-> In a rs.
Proof.
  rewrite List.map_app, in_app_iff, List.map_map, in_map_iff. split.
  - intros [(b & Hb & Hin)|[H|[]]]; [|discriminate].
    by rewrite (resource_key_inj a b (eq_sym Hb)).
  - intros Hin. left. by exists a.
Qed.

Lemma resource_keys_nodup (rs : list string) :
  List.NoDup (List.map key (List.map (resource_item humanizeString) rs ++ [logout_item]))
  <-> List.NoDup rs.
Proof.
  induction rs as [|a rs IH].
  - split; intros _; repeat constructor. by intros [].
  - change (List.map key (List.map (resource_item humanizeString) (a :: rs) ++ [logout_item]))
      with (key (resource_item humanizeString a)
            :: List.map key (List.map (resource_item humanizeString) rs ++ [logout_item])).
    rewrite !List.NoDup_cons_iff, in_resource_keys, IH. done.
Qed.

(** X3. The keys of the menu entries (dashboard, resource-<name> for the
    registry, logout) are pairwise distinct exactly when the names of the
    registry are. *)
Theorem menu_keys_unique (ctx : IResourceContext) :
  List.NoDup (List.map key (fst (Menu humanizeString ctx)))
  <-> List.NoDup (resources ctx).
Proof.
  rewrite menu_items.
  change (List.map key (dashboard_item :: ?l)) with ("dashboard" :: List.map key l).
  rewrite List.NoDup_cons_iff, resource_keys_nodup.
  split; [by intros [_ H]|]. intros H. split; [|done].
  rewrite List.map_app, in_app_iff, List.map_map, in_map_iff.
  intros [(b & Hb & _)|[Hb|[]]]; discriminate.
Qed.

Lemma keyed_resource_items (k : string) (rs : list string) :
  (forall name, k <> "resource-" +:+ name) ->
  List.filter (fun it => String.eqb (key it) k)
              (List.map (resource_item humanizeString) rs) = [].
Proof.
  intros Hk. induction rs as [|a rs IH]; [done|]. cbn [List.map List.filter].
  destruct (String.eqb_spec (key (resource_item humanizeString a)) k) as [E|_];
    [|done].
  by destruct (Hk a).
Qed.

(** X4. For every registry, the empty one included, the menu has two
    entries more than the registry has names; it starts with the
    dashboard entry and ends with the logout entry; and the key selected
    by default, like the key "logout" the click handler reacts to, is the
    key of exactly one entry. *)
Theorem menu_frame_entries (ctx : IResourceContext) :
  let items := fst (Menu humanizeString ctx) in
  length items = length (resources ctx) + 2
  /\ head items = Some dashboard_item
  /\ last items = Some logout_item
  /\ Forall (fun k => List.filter (fun it => String.eqb (key it) k) items
                      = [dashboard_item])
            defaultSelectedKeys
  /\ List.filter (fun it => String.eqb (key it) "logout") items = [logout_item].
Proof.
  intros items. unfold items. rewrite menu_items.
  split; [|split; [done|split; [|split]]].
  - simpl. rewrite length_app, length_map. simpl. lia.
  - change (dashboard_item :: ?l ++ [logout_item])
      with ((dashboard_item :: l) ++ [logout_item]).
    apply last_snoc.
  - repeat constructor. simpl. rewrite List.filter_app.
    rewrite keyed_resource_items by discriminate. done.
  - simpl. rewrite List.filter_app.
    rewrite keyed_resource_items by discriminate. done.
Qed.

(** X5. A menu entry that links to /resources/<name> is the entry of a
    name of the registry: nothing links to the page of a resource that is
    not registered, and the dashboard link "/" is no resource page. *)
Theorem links_only_to_registry (ctx : IResourceContext) (it : MenuItem) (name : string) :
  In it (fst (Menu humanizeString ctx)) ->
  link_target it = Some ("/resources/" +:+ name) ->
  In name (resources ctx) /\ it = resource_item humanizeString name.
Proof.
  rewrite menu_items. intros [<-|Hin] Htarget; [discriminate|].
  apply in_app_iff in Hin as [Hin|[<-|[]]]; [|discriminate].
  apply in_map_iff in Hin as (b & <- & Hin).
  apply (LayoutFacts.resource_target_inj b name) in Htarget as ->. done.
Qed.

End MenuFacts.

Lemma links_only_to_registry_witness :
  In "posts" ["posts"; "categories"]
  /\ resource_item (fun s : string => s) "posts" = resource_item (fun s : string => s) "posts".
Proof.
  apply (links_only_to_registry (fun s : string => s)
           (mkResourceContext ["posts"; "categories"])
           (resource_item (fun s : string => s) "posts") "posts").
  - simpl. right. by left.
  - reflexivity.
Defined.

(** ** Clicks and settlements in any order *)

Lemma filter_split_length {A : Type} (f : A -> bool) (l : list A) :
  length (List.filter f l) + length (List.filter (fun x => negb (f x)) l) = length l.
Proof.
  induction l as [|a l IH]; [done|]. simpl. destruct (f a); simpl; lia.
Qed.

Lemma Forall_filter_keeps {A : Type} (P : A -> Prop) (f : A -> bool) (l : list A) :
  Forall P l -> Forall P (List.filter f l).
Proof.
  intros H. apply List.Forall_forall. intros x Hin.
  apply List.filter_In in Hin as [Hin _].
  by apply (proj1 (List.Forall_forall P l) H).
Qed.

Lemma callbacks_push (l : list (nat * Callback)) :
  Forall (fun r => snd r tt = [HistoryPush "/login"]) l ->
  List.concat (List.map (fun r => snd r tt) l) =
  repeat (HistoryPush "/login") (length l).
Proof.
  induction 1 as [|r l Hr _ IH]; [done|]. simpl. by rewrite Hr, IH.
Qed.

Lemma filter_repeat {A : Type} (f : A -> bool) (x : A) (n : nat) :
  List.filter f (repeat x n) = if f x then repeat x n else [].
Proof.
  induction n as [|n IH]; simpl; [by destruct (f x)|].
  rewrite IH. by destruct (f x).
Qed.

Lemma occurrences_app (f : Effect -> bool) (w : World) (t : list Effect)
    (rs : list (nat * Callback)) (n : nat) :
  occurrences f (mkWorld (trace w ++ t) rs n) =
  occurrences f w + length (List.filter f t).
Proof. unfold occurrences. simpl. by rewrite List.filter_app, length_app. Qed.

Lemma logout_clicks_cons (a : Action) (actions : list Action) :
  logout_clicks (a :: actions) = logout_clicks [a] + logout_clicks actions.
Proof.
  unfold logout_clicks. simpl.
  by destruct a as [k|p o]; [destruct (String.eqb k "logout")|].
Qed.

Lemma all_clicks_cons (a : Action) (actions : list Action) :
  all_clicks (a :: actions) = all_clicks [a] + all_clicks actions.
Proof. unfold all_clicks. simpl. by destruct a. Qed.

(** What one action does to the counts of effects. *)
Lemma act_accounting (a : Action) (w : World) :
  tidy w ->
  tidy (act a w)
  /\ occurrences is_logout (act a w) = occurrences is_logout w + logout_clicks [a]
  /\ occurrences is_log (act a w) = occurrences is_log w + all_clicks [a]
  /\ occurrences is_push (act a w) + length (reactions (act a w))
       <= occurrences is_push w + length (reactions w) + logout_clicks [a]
  /\ occurrences is_push w <= occurrences is_push (act a w).
Proof.
  intros [Hcb Htr]. destruct a as [k|p o]; simpl.
  - unfold menuOnClick, logout_clicks, all_clicks. simpl.
    destruct (String.eqb k "logout"); simpl.
    + split; [split|].
      * simpl. apply Forall_app. split; [done | by repeat constructor].
      * simpl. rewrite <- app_assoc. apply Forall_app. split; [done|].
        by repeat constructor.
      * unfold occurrences. simpl.
        rewrite <- !app_assoc, !List.filter_app, !length_app. simpl. lia.
    + split; [split|].
      * done.
      * simpl. apply Forall_app. split; [done | by repeat constructor].
      * unfold occurrences. simpl. rewrite !List.filter_app, !length_app. simpl. lia.
  - unfold logout_clicks, all_clicks. simpl.
    pose proof (filter_split_length (waits_on p) (reactions w)) as Hlen.
    pose proof (Forall_filter_keeps _ (waits_on p) _ Hcb) as Hready.
    pose proof (Forall_filter_keeps _ (fun r => negb (waits_on p r)) _ Hcb) as Hrest.
    destruct o as [[]|e]; unfold promise_settled.
    + rewrite (callbacks_push _ Hready). rewrite !occurrences_app.
      rewrite !filter_repeat. simpl. rewrite repeat_length.
      split; [split|]; simpl; [done| |lia].
      apply Forall_app. split; [done|].
      apply List.Forall_forall. intros x Hx. by apply repeat_spec in Hx as ->.
    + split; [done|]. unfold occurrences. simpl. lia.
Qed.

Lemma play_accounting (actions : list Action) :
  forall w : World,
    tidy w ->
    tidy (play actions w)
    /\ occurrences is_logout (play actions w) =
         occurrences is_logout w + logout_clicks actions
    /\ occurrences is_log (play actions w) = occurrences is_log w + all_clicks actions
    /\ occurrences is_push (play actions w) + length (reactions (play actions w))
         <= occurrences is_push w + length (reactions w) + logout_clicks actions
    /\ occurrences is_push w <= occurrences is_push (play actions w).
Proof.
  induction actions as [|a actions IH]; intros w Htidy.
  { unfold logout_clicks, all_clicks, play. simpl.
    split; [done|]. repeat split; lia. }
  destruct (act_accounting a w Htidy) as (Ht & Hlo & Hlg & Hpu & Hmono).
  destruct (IH (act a w) Ht) as (Ht' & Hlo' & Hlg' & Hpu' & Hmono').
  rewrite logout_clicks_cons, all_clicks_cons.
  change (play (a :: actions) w) with (play actions (act a w)).
  repeat split; try apply Ht'; lia.
Qed.

Lemma tidy_initial : tidy initial.
Proof. split; constructor. Qed.

(** X6. Whatever the order of clicks and settlements from the first
    render on, the auth provider's logout has been called once per click
    on the logout entry, and every click has been logged once. *)
Theorem logout_called_once_per_click (actions : list Action) :
  occurrences is_logout (play actions initial) = logout_clicks actions
  /\ occurrences is_log (play actions initial) = all_clicks actions.
Proof.
  destruct (play_accounting actions initial tidy_initial) as (_ & Hlo & Hlg & _).
  done.
Qed.

Lemma play_snoc (actions : list Action) (a : Action) (w : World) :
  play (actions ++ [a]) w = act a (play actions w).
Proof. unfold play. by rewrite fold_left_app. Qed.

Lemma trace_extends (a : Action) (w : World) :
  exists extra : list Effect, trace (act a w) = trace w ++ extra.
Proof.
  destruct a as [k|p o]; simpl.
  - unfold menuOnClick. destruct (String.eqb k "logout"); simpl.
    + eexists. by rewrite <- app_assoc.
    + by eexists.
  - unfold promise_settled. destruct o; simpl; [by eexists|].
    exists []. by rewrite app_nil_r.
Qed.

Lemma NoDup_snoc {A : Type} (l : list A) (x : A) :
  List.NoDup l -> ~ In x l -> List.NoDup (l ++ [x]).
Proof.
  induction l as [|a l IH]; intros Hnd Hx; simpl.
  - repeat constructor. by intros [].
  - apply List.NoDup_cons_iff in Hnd as [Ha Hnd].
    apply List.NoDup_cons_iff. split.
    + rewrite in_app_iff. intros [H|[H|[]]]; [done|].
      apply Hx. by left.
    + apply IH; [done|]. intros H. apply Hx. by right.
Qed.

Lemma NoDup_filter_fst (f : nat * Callback -> bool) (l : list (nat * Callback)) :
  List.NoDup (List.map fst l) -> List.NoDup (List.map fst (List.filter f l)).
Proof.
  induction l as [|r l IH]; intros Hnd; [done|]. simpl in *.
  apply List.NoDup_cons_iff in Hnd as [Hr Hnd].
  destruct (f r); simpl; [|by apply IH].
  apply List.NoDup_cons_iff. split; [|by apply IH].
  intros Hin. apply Hr. apply in_map_iff in Hin as (x & Hx & Hin).
  apply List.filter_In in Hin as [Hin _]. apply in_map_iff. by exists x.
Qed.

(** A promise has at most one callback waiting on it. *)
Lemma one_callback_per_promise (p : nat) (l : list (nat * Callback)) :
  List.NoDup (List.map fst l) ->
  List.filter (waits_on p) l = []
  \/ exists r, List.filter (waits_on p) l = [r] /\ In r l /\ fst r = p.
Proof.
  induction l as [|r l IH]; intros Hnd; [by left|]. simpl in *.
  apply List.NoDup_cons_iff in Hnd as [Hr Hnd].
  destruct (waits_on p r) eqn:Hw.
  - assert (Heq : fst r = p) by (by apply Nat.eqb_eq).
    right. exists r. split; [|by split; [left|]]. f_equal.
    destruct (IH Hnd) as [Hnone|(x & _ & Hin & Hx)]; [done|].
    destruct Hr. apply in_map_iff. exists x. split; [congruence | done].
  - destruct (IH Hnd) as [Hnone|(x & Hx & Hin & Hfst)]; [by left|].
    right. exists x. split; [done|]. split; [by right | done].
Qed.

Lemma orderly_initial : orderly initial.
Proof.
  split; [apply tidy_initial|]. split; [apply LayoutFacts.well_formed_initial|].
  split; constructor.
Qed.

Lemma orderly_act (a : Action) (w : World) : orderly w -> orderly (act a w).
Proof.
  intros (Htidy & Hwf & Hnd & Hcalls).
  destruct (act_accounting a w Htidy) as (Htidy' & _).
  destruct (trace_extends a w) as (extra & Hextra).
  split; [done|]. destruct a as [k|p o]; simpl in *.
  - split; [by apply LayoutFacts.well_formed_click|].
    unfold menuOnClick in *. destruct (String.eqb k "logout"); simpl in *.
    + split.
      * rewrite List.map_app. simpl. apply NoDup_snoc; [done|].
        intros Hin. apply in_map_iff in Hin as (r & Hr & Hin).
        pose proof (proj1 (List.Forall_forall _ _) Hwf r Hin) as Hlt.
        simpl in Hlt. lia.
      * apply Forall_app. split.
        -- eapply Forall_impl; [exact Hcalls|]. simpl. intros r Hr.
           rewrite in_app_iff. left. rewrite in_app_iff. by left.
        -- repeat constructor. simpl. rewrite in_app_iff. right. by left.
    + split; [done|]. eapply Forall_impl; [exact Hcalls|]. simpl. intros r Hr.
      rewrite in_app_iff. by left.
  - split; [by apply LayoutFacts.well_formed_settled|].
    assert (Hrest : reactions (promise_settled p o w) =
                    List.filter (fun r => negb (waits_on p r)) (reactions w))
      by (by destruct o).
    rewrite Hrest. split; [by apply NoDup_filter_fst|].
    apply Forall_filter_keeps. eapply Forall_impl; [exact Hcalls|]. simpl.
    intros r Hr. rewrite Hextra, in_app_iff. by left.
Qed.

Lemma orderly_play (actions : list Action) (w : World) :
  orderly w -> orderly (play actions w).
Proof.
  revert w. induction actions as [|a actions IH]; intros w Hw; [done|].
  change (play (a :: actions) w) with (play actions (act a w)).
  by apply IH, orderly_act.
Qed.

(** What one action does to the number of navigations. *)
Lemma push_step (a : Action) (w : World) :
  orderly w ->
  occurrences is_push (act a w) = occurrences is_push w
  \/ exists p, a = Settles p (Fulfilled tt)
               /\ In (AuthLogout p) (trace w)
               /\ occurrences is_push (act a w) = S (occurrences is_push w).
Proof.
  intros ([Hcb _] & _ & Hnd & Hcalls). destruct a as [k|p [[]|e]]; simpl.
  - left. unfold menuOnClick, occurrences.
    destruct (String.eqb k "logout"); simpl;
      rewrite <- ?app_assoc, !List.filter_app, !length_app; simpl; lia.
  - unfold promise_settled. rewrite occurrences_app.
    destruct (one_callback_per_promise p (reactions w) Hnd)
      as [Hnone|(r & Hone & Hin & Hp)].
    + left. rewrite Hnone. simpl. lia.
    + right. exists p. split; [done|]. split.
      * pose proof (proj1 (List.Forall_forall _ _) Hcalls r Hin) as Hcall.
        simpl in Hcall. by rewrite Hp in Hcall.
      * rewrite Hone. simpl.
        rewrite (proj1 (List.Forall_forall _ _) Hcb r Hin). simpl. lia.
  - by left.
Qed.

(** X7. The [history.push] calls of the click handler, in any run of
    clicks and settlements from the first render on.  A step changes
    their number only when it fulfils the promise that an earlier logout
    call returned, and then by exactly one: neither a click nor a rejected
    promise adds one.  All of them go to /login, and together with the
    callbacks still waiting they never outnumber the logout calls. *)
Theorem navigation_only_on_fulfilled_logout (actions : list Action) (a : Action) :
  let before := play actions initial in
  let after := play (actions ++ [a]) initial in
  (occurrences is_push after = occurrences is_push before
   \/ exists p, a = Settles p (Fulfilled tt)
                /\ In (AuthLogout p) (trace before)
                /\ occurrences is_push after = S (occurrences is_push before))
  /\ Forall (fun e => is_push e = true -> e = HistoryPush "/login") (trace after)
  /\ occurrences is_push after + length (reactions after)
       <= occurrences is_logout after.
Proof.
  intros before after. unfold after. split.
  - rewrite play_snoc. apply push_step, orderly_play, orderly_initial.
  - destruct (play_accounting (actions ++ [a]) initial tidy_initial)
      as ([_ Htr] & Hlo & _ & Hpu & _).
    split; [done|]. rewrite Hlo. unfold occurrences in Hpu. simpl in Hpu.
    unfold occurrences. lia.
Qed.

End LayoutRunsFacts.


(** * Properties of the sample auth provider *)
Module AuthProviderFacts.
Import AuthProvider.

Lemma strict_eq_spec (v : option string) (s : string) :
  strict_eq v s = true <-> v = Some s.
Proof.
  destruct v as [u|]; simpl; [|done].
  destruct (String.eqb_spec u s); split; intros; simplify_eq; done.
Qed.

Lemma checkAuth_perform (c : Call) (localStorage : gmap string string) :
  fulfilled (checkAuth (perform c localStorage)) =
  signed_in [c] (fulfilled (checkAuth localStorage)).
Proof.
  destruct c as [params| | | |]; simpl; try done.
  - unfold login. destruct (strict_eq (username params) "admin") eqn:E; simpl; [|done].
    apply strict_eq_spec in E. rewrite E. simpl.
    unfold checkAuth. by rewrite lookup_insert_eq.
  - unfold checkAuth. by rewrite lookup_delete_eq.
Qed.

(** X8. [login] is fulfilled exactly for the username "admin".  It then
    stores that name, so that [checkAuth] is fulfilled afterwards; any
    other login is rejected and leaves the storage as it was, so it
    neither opens a session nor ends one that is open. *)
Theorem login_only_admin (params : LoginParams) (localStorage : gmap string string) :
  (fulfilled (fst (login params localStorage)) = true <-> username params = Some "admin")
  /\ if fulfilled (fst (login params localStorage)) then
       snd (login params localStorage) !! "username" = Some "admin"
       /\ checkAuth (snd (login params localStorage)) = Fulfilled tt
     else
       fst (login params localStorage) = Rejected tt
       /\ snd (login params localStorage) = localStorage.
Proof.
  unfold login. destruct (strict_eq (username params) "admin") eqn:E.
  - apply strict_eq_spec in E. rewrite E. simpl.
    split; [done|]. unfold checkAuth. by rewrite lookup_insert_eq.
  - simpl. split; [|done]. split; [done|]. intros H.
    apply strict_eq_spec in H. congruence.
Qed.

(** X9. [logout] is always fulfilled and ends the session: [checkAuth]
    is rejected afterwards, whatever the storage held, and a second
    logout changes nothing more. *)
Theorem logout_ends_session (localStorage : gmap string string) :
  fst (logout localStorage) = Fulfilled tt
  /\ checkAuth (snd (logout localStorage)) = Rejected tt
  /\ snd (logout (snd (logout localStorage))) = snd (logout localStorage).
Proof.
  unfold logout, checkAuth. simpl. rewrite lookup_delete_eq.
  repeat split. by rewrite delete_delete_eq.
Qed.

(** X10. No call of the provider reads or writes anything in the storage
    but the key "username". *)
Theorem provider_touches_username_only
    (calls : list Call) (localStorage : gmap string string) (k : string) :
  k <> "username" ->
  perform_all calls localStorage !! k = localStorage !! k.
Proof.
  intros Hk. revert localStorage.
  induction calls as [|c calls IH]; intros localStorage; [done|].
  change (perform_all (c :: calls) localStorage)
    with (perform_all calls (perform c localStorage)).
  rewrite IH. destruct c as [params| | | |]; simpl; try done.
  - unfold login. destruct (strict_eq (username params) "admin"); [|done].
    destruct (username params); simpl; [|done]. by rewrite lookup_insert_ne.
  - by rewrite lookup_delete_ne.
Qed.

Lemma provider_touches_username_only_witness :
  perform_all [Login (mkParams (Some "admin")); Logout] {["theme" := "dark"]}
    !! "theme" = Some "dark".
Proof.
  rewrite (provider_touches_username_only _ _ "theme"); [reflexivity | discriminate].
Defined.

(** X11. After any sequence of calls, [checkAuth] is fulfilled exactly when
    a session is open: the last login as "admin" or logout decides, and
    without either the answer is the one from before the calls. *)
Theorem checkAuth_follows_session (calls : list Call) (localStorage : gmap string string) :
  fulfilled (checkAuth (perform_all calls localStorage)) =
  signed_in calls (fulfilled (checkAuth localStorage)).
Proof.
  revert localStorage.
  induction calls as [|c calls IH]; intros localStorage; [done|].
  change (perform_all (c :: calls) localStorage)
    with (perform_all calls (perform c localStorage)).
  rewrite IH, checkAuth_perform. done.
Qed.

Lemma click_logout_ready (w : Layout.World) :
  Layout.well_formed w ->
  List.filter (Layout.waits_on (Layout.next_promise w))
              (Layout.reactions (Layout.menuOnClick "logout" w)) =
  [(Layout.next_promise w, fun _ : unit => [Layout.HistoryPush "/login"])].
Proof.
  intros Hwf.
  assert (Hre : Layout.reactions (Layout.menuOnClick "logout" w) =
            Layout.reactions w
            ++ [(Layout.next_promise w, fun _ : unit => [Layout.HistoryPush "/login"])])
    by done.
  rewrite Hre, List.filter_app, (LayoutFacts.no_reaction_on_next w Hwf). simpl.
  unfold Layout.waits_on. simpl. by rewrite Nat.eqb_refl.
Qed.

Lemma none_left_waiting (p : nat) (l : list (nat * Layout.Callback)) :
  List.filter (Layout.waits_on p)
              (List.filter (fun r => negb (Layout.waits_on p r)) l) = [].
Proof.
  induction l as [|r l IH]; [done|]. simpl.
  destruct (Layout.waits_on p r) eqn:Hr; simpl; [done|]. by rewrite Hr.
Qed.

(** X12. The logout entry of the layout wired to this provider: the click
    logs, calls logout, and the promise being fulfilled, the navigation to
    /login follows; no callback is left waiting and [checkAuth] is
    rejected from then on. *)
Theorem logout_flow_reaches_login (w : Layout.World) (localStorage : gmap string string) :
  Layout.well_formed w ->
  let '(w', ls) := logout_flow w localStorage in
  Layout.trace w' =
    Layout.trace w ++ [Layout.ConsoleLog "clicked -> logout";
                       Layout.AuthLogout (Layout.next_promise w);
                       Layout.HistoryPush "/login"]
  /\ List.filter (Layout.waits_on (Layout.next_promise w)) (Layout.reactions w') = []
  /\ checkAuth ls = Rejected tt.
Proof.
  intros Hwf. unfold logout_flow, logout, Layout.promise_settled. cbv zeta.
  cbn [Layout.trace Layout.reactions]. rewrite (click_logout_ready w Hwf).
  split; [|split].
  - unfold Layout.menuOnClick. simpl. by rewrite <- !app_assoc.
  - apply none_left_waiting.
  - unfold checkAuth. by rewrite lookup_delete_eq.
Qed.

Lemma logout_flow_reaches_login_witness :
  Layout.trace (fst (logout_flow Layout.initial {["username" := "admin"]})) =
  [Layout.ConsoleLog "clicked -> logout"; Layout.AuthLogout 0; Layout.HistoryPush "/login"].
Proof.
  pose proof (logout_flow_reaches_login Layout.initial {["username" := "admin"]}
                LayoutFacts.well_formed_initial) as H.
  destruct (logout_flow Layout.initial {["username" := "admin"]}) as [w' ls].
  destruct H as (H & _ & _). exact H.
Defined.

End AuthProviderFacts.


(** * Further properties of the unsaved-changes prompt *)
Module PromptRunsFacts.
Import Prompt Runs.

Section Listener.
Variable confirm : string -> bool.

(** X13. As long as the flag [when] does not change from one render to
    the next, the listener registered on mount stays: the listener
    answering a route change is the one closed over the props of the
    first render, so a message (or callback) that changed meanwhile is
    not the one used. *)
Theorem prompt_keeps_first_closure (first : PromptProps) (later : list PromptProps) :
  Forall (fun p => when p = when first) later ->
  renders later (render first None) = Some first
  /\ route_change confirm (renders later (render first None)) =
     routeChangeStart confirm first.
Proof.
  intros Hsame.
  assert (H : renders later (Some first) = Some first).
  { induction Hsame as [|p later Hp _ IH]; [done|].
    change (renders (p :: later) (Some first))
      with (renders later (render p (Some first))).
    simpl. by rewrite Hp, Bool.eqb_reflx. }
  simpl. by rewrite H.
Qed.

(** X14. What the listener does on a route change: it blocks exactly
    when the flag is on and the user declines; it emits nothing but
    [routeChangeError], and that exactly when it blocks; it calls
    [setWarnWhen] only with false, and exactly when the flag is on, the
    user confirms and the callback was supplied; it asks for confirmation
    once when the flag is on and not at all otherwise. *)
Theorem listener_effects (props : PromptProps) :
  let effects := fst (routeChangeStart confirm props) in
  let completion := snd (routeChangeStart confirm props) in
  blocked completion = when props && negb (confirm (message props))
  /\ (forall event, In (Emit event) effects <->
        event = "routeChangeError" /\ blocked completion = true)
  /\ (forall b, In (SetWarnWhen b) effects <->
        b = false /\ when props && confirm (message props) && setWarnWhen props = true)
  /\ List.filter is_confirm effects =
       (if when props then [Confirm (message props)] else []).
Proof.
  unfold routeChangeStart.
  destruct (when props), (confirm (message props)), (setWarnWhen props); simpl;
    (split; [done|split; [|split; [|done]]]);
    intros x; split;
    solve [ intros [H|[H|[H|[]]]]; simplify_eq; done
          | intros [H|[H|[]]]; simplify_eq; done
          | intros [H|[]]; simplify_eq; done
          | intros []
          | intros [-> H]; simplify_eq; simpl; auto
          | intros [H1 H2]; simplify_eq ].
Qed.

End Listener.

Lemma prompt_keeps_first_closure_witness :
  renders [mkProps "Second message" true true; mkProps "Third message" true false]
          (render (mkProps "First message" true false) None)
  = Some (mkProps "First message" true false).
Proof.
  apply (prompt_keeps_first_closure (fun _ => true)
           (mkProps "First message" true false)
           [mkProps "Second message" true true; mkProps "Third message" true false]).
  repeat constructor.
Defined.

End PromptRunsFacts.


(** * Properties of the nextjs router adapter *)
Module NextRouterFacts.
Import NextRouter.

Section AdapterFacts.
Variable ParsedUrlQuery : Type.
Variable qs_stringify : ParsedUrlQuery -> string.

(** X15. [useLocation] hands the pathname on as it is.  Its [search] is
    empty exactly when the query stringifies to the empty string, and is
    otherwise the question mark followed by the stringified query: it is
    never a question mark alone. *)
Theorem useLocation_search (router : Router ParsedUrlQuery) :
  let location := useLocation ParsedUrlQuery qs_stringify router in
  let queryParams := qs_stringify (query ParsedUrlQuery router) in
  loc_pathname location = pathname ParsedUrlQuery router
  /\ (search location = "" <-> queryParams = "")
  /\ (queryParams = "" \/ search location = "?" +:+ queryParams)
  /\ search location <> "?".
Proof.
  simpl. unfold and_then.
  destruct (String.eqb_spec (qs_stringify (query ParsedUrlQuery router)) "") as [E|E].
  - rewrite E. repeat split; auto; discriminate.
  - repeat split; auto; try discriminate.
    + intros H. by destruct (E H).
    + intros H. cbn in H. injection H as H. by destruct (E H).
Qed.

End AdapterFacts.
End NextRouterFacts.


(** * Properties of the post review page *)
Module PostReviewFacts.
Import PostReview.

Section Page.
Variables (isLoading categoryIsLoading mutateIsLoading : bool).
Variable categoryData : option ICategory.

(** X16. The page throws a TypeError while the list has no first record
    (no data yet, or an empty list): the category id is read off the
    record before anything can disable the query.  When there is a first
    record, the page renders, and [useOne] is asked for the category of
    that record with [enabled] true. *)
Theorem review_needs_a_record (data : option (list IPost)) :
  match first_record data with
  | None =>
      PostReview data isLoading categoryData categoryIsLoading mutateIsLoading
      = Throws "TypeError"
  | Some r =>
      exists v : View,
        PostReview data isLoading categoryData categoryIsLoading mutateIsLoading = Ok v
        /\ one v = mkUseOne "categories" (cat_id (category r)) true
        /\ recordItemId v = Some (id r)
  end.
Proof.
  unfold PostReview. destruct (first_record data) as [r|]; simpl; [|done].
  eexists. split; [done|]. done.
Qed.

(** X17. On a page that has rendered, a click on Approve (Reject) makes
    exactly one call of [mutate]: for the resource posts and the id of the
    record on display, with the status published (rejected) and every
    other field of the record as it is.  The buttons are disabled exactly
    while one of the three requests is loading. *)
Theorem review_buttons (data : option (list IPost)) (v : View) :
  PostReview data isLoading categoryData categoryIsLoading mutateIsLoading = Ok v ->
  exists r : IPost,
    first_record data = Some r
    /\ approve v = [mkMutate "posts" (id r) (mkPost (id r) (title r) (content r)
                                                    "published" (category r))]
    /\ reject v = [mkMutate "posts" (id r) (mkPost (id r) (title r) (content r)
                                                   "rejected" (category r))]
    /\ (buttonDisabled v = false <->
          isLoading = false /\ categoryIsLoading = false /\ mutateIsLoading = false).
Proof.
  unfold PostReview. destruct (first_record data) as [r|]; simpl; [|discriminate].
  intros [= <-]. exists r. simpl. repeat split; try done.
  - by destruct isLoading.
  - by destruct isLoading, categoryIsLoading.
  - by destruct isLoading, categoryIsLoading, mutateIsLoading.
  - by intros (-> & -> & ->).
Qed.

End Page.

Lemma review_buttons_witness :
  exists r : IPost,
    first_record (Some [mkPost "1" "Dolorem" "Non et" "draft" (mkCategory "32" "")])
      = Some r
    /\ id r = "1".
Proof.
  destruct (review_buttons false false false None
              (Some [mkPost "1" "Dolorem" "Non et" "draft" (mkCategory "32" "")])
              _ eq_refl) as (r & Hr & _).
  exists r. split; [exact Hr|]. simpl in Hr. by simplify_eq.
Defined.

End PostReviewFacts.


(** * Properties of the unique-title rule *)
Module UniqueTitleFacts.
Import UniqueTitle.

Section RuleFacts.
Variable refetch_data : nat -> option PostUniqueCheckResponse.

(** X18. For an undefined or empty value the rule passes without asking
    the backend.  For any other value it asks exactly once and passes
    exactly when the answer says the title is available; an answer that
    says it is taken, and a request that brought no answer, are both
    rejected with the message that the title must be unique.  The value
    itself does not enter the request. *)
Theorem validator_outcome (value : option string) (calls : nat) :
  if not_value value then
    validator refetch_data value calls = (Fulfilled tt, calls)
  else
    snd (validator refetch_data value calls) = S calls
    /\ (fst (validator refetch_data value calls) = Fulfilled tt <->
          refetch_data calls = Some (mkResponse true))
    /\ (fst (validator refetch_data value calls) = Fulfilled tt
        \/ fst (validator refetch_data value calls) =
             Rejected "'title' is must be unique")
    /\ validator refetch_data value calls = validator refetch_data (Some "x") calls.
Proof.
  unfold validator, refetch. destruct (not_value value); [done|]. simpl.
  destruct (refetch_data calls) as [[[]]|]; simpl; repeat split; auto; discriminate.
Qed.

End RuleFacts.
End UniqueTitleFacts.
